(** * BitWise Visualizer: the numeric conversion core

    A shallow embedding of [utils.ts] ([bigIntToBytes], [parseInput],
    [calculateMinBytes]) and of the derived state of [MainContent] in
    [App.tsx] ([dynamicByteLength], [memoryBytes], [interpretations]),
    together with the part of the ECMAScript runtime these functions call
    ([BigInt] applied to a string, [BigInt.prototype.toString], [Math.ceil],
    [DataView]).  The second half covers the rest of [utils.ts]
    ([formatHex], [formatBin], [getByteColor], [getByteBorderColor]) and the
    computations of the components [BitGrid], [ByteCard] and [WordCard] and
    of [wordChunks].

    Conventions.
    - A JavaScript [bigint] is a [Z]; [&] is [Z.land] and [>>] is [Z.shiftr]
      (both are two's complement on negative numbers, as in ECMAScript).
    - A JavaScript [number] that is known to be an integer is a [Z]; the one
      place where the code divides two numbers before [Math.ceil] the
      quotient is an exact rational [Q].
    - A JavaScript string is the list of its UTF-16 code units.
    - A computation that may throw returns a [completion]. *)

From Stdlib Require Import ZArith NArith List String Ascii Bool Lia ZifyBool.
From Stdlib Require Import QArith Qround SpecFloat.
Import ListNotations.

Local Open Scope Z_scope.

(* ================================================================== *)
(** * The host: the ECMAScript operations used by the sources          *)
(* ================================================================== *)

Module JS.

(** ** Completions: normal return or a thrown exception *)

Inductive exn : Set := SyntaxError | RangeError.

Inductive completion (A : Type) : Type :=
| Normal (a : A)
| Throw (e : exn).

Arguments Normal {A} a.
Arguments Throw {A} e.

Definition bind {A B : Type} (c : completion A) (k : A -> completion B)
  : completion B :=
  match c with
  | Normal a => k a
  | Throw e => Throw e
  end.

(** [try { body } catch (e) { handler e }] *)
Definition try_catch {A : Type} (body : completion A)
  (handler : exn -> completion A) : completion A :=
  match body with
  | Normal a => Normal a
  | Throw e => handler e
  end.

Notation "x <- c ;; k" := (bind c (fun x => k))
  (at level 61, c at next level, right associativity).

(** ** Strings as lists of UTF-16 code units *)

Definition jsstring : Type := list N.

Definition ch (a : ascii) : N := N_of_ascii a.

(** A string literal of the source. *)
Definition js (s : string) : jsstring := List.map N_of_ascii (list_ascii_of_string s).

(** [WhiteSpace] and [LineTerminator] code points; this is both the set the
    regular expression [\s] matches and [StrWhiteSpaceChar]. *)
Definition isWhiteSpace (c : N) : bool :=
  ((9 <=? c) && (c <=? 13) || (c =? 32) || (c =? 160) || (c =? 5760)
   || (8192 <=? c) && (c <=? 8202) || (c =? 8232) || (c =? 8233)
   || (c =? 8239) || (c =? 8287) || (c =? 12288) || (c =? 65279))%N.

(** [s.replace(/\s/g, '')] *)
Definition replace_whitespace (s : jsstring) : jsstring :=
  List.filter (fun c => negb (isWhiteSpace c)) s.

(** [s.replace(/_/g, '')] *)
Definition replace_underscore (s : jsstring) : jsstring :=
  List.filter (fun c => negb (c =? ch "_")%N) s.

(** [s.startsWith(p)] *)
Fixpoint startsWith (p s : jsstring) : bool :=
  match p, s with
  | [], _ => true
  | _ :: _, [] => false
  | a :: p', b :: s' => (a =? b)%N && startsWith p' s'
  end.

(** ** [StringToBigInt] and the [BigInt] function on strings *)

(** The value of a digit character [0-9], [a-z] or [A-Z]. *)
Definition digitValue (c : N) : option Z :=
  if ((ch "0" <=? c) && (c <=? ch "9"))%N then Some (Z.of_N c - 48)
  else if ((ch "a" <=? c) && (c <=? ch "z"))%N then Some (Z.of_N c - 87)
  else if ((ch "A" <=? c) && (c <=? ch "Z"))%N then Some (Z.of_N c - 55)
  else None.

(** A digit of the given radix. *)
Definition digitOf (radix : Z) (c : N) : option Z :=
  match digitValue c with
  | Some d => if d <? radix then Some d else None
  | None => None
  end.

(** The mathematical value of a run of digits, most significant first;
    [None] when a character is not a digit of the radix. *)
Fixpoint digitsMV (radix : Z) (acc : Z) (ds : jsstring) : option Z :=
  match ds with
  | [] => Some acc
  | c :: ds' =>
      match digitOf radix c with
      | Some d => digitsMV radix (acc * radix + d) ds'
      | None => None
      end
  end.

(** [DecimalDigits], [HexDigits], [OctalDigits], [BinaryDigits] without
    separators: one digit at least. *)
Definition Digits (radix : Z) (ds : jsstring) : option Z :=
  match ds with
  | [] => None
  | _ :: _ => digitsMV radix 0 ds
  end.

(** [StrIntegerLiteral ::: SignedInteger | NonDecimalIntegerLiteral].
    A sign is allowed before decimal digits only. *)
Definition StrIntegerLiteral (s : jsstring) : option Z :=
  match s with
  | c0 :: c1 :: ds =>
      if ((c0 =? ch "0") && ((c1 =? ch "x") || (c1 =? ch "X")))%N then Digits 16 ds
      else if ((c0 =? ch "0") && ((c1 =? ch "o") || (c1 =? ch "O")))%N then Digits 8 ds
      else if ((c0 =? ch "0") && ((c1 =? ch "b") || (c1 =? ch "B")))%N then Digits 2 ds
      else if (c0 =? ch "+")%N then Digits 10 (c1 :: ds)
      else if (c0 =? ch "-")%N then option_map Z.opp (Digits 10 (c1 :: ds))
      else Digits 10 s
  | _ => Digits 10 s
  end.

Fixpoint trimStart (s : jsstring) : jsstring :=
  match s with
  | [] => []
  | c :: s' => if isWhiteSpace c then trimStart s' else s
  end.

Definition trimEnd (s : jsstring) : jsstring := rev (trimStart (rev s)).

(** [StringIntegerLiteral ::: StrWhiteSpace? | StrWhiteSpace? StrIntegerLiteral StrWhiteSpace?];
    the empty literal has value 0, a text outside the grammar gives [None]
    ([undefined]). *)
Definition StringToBigInt (str : jsstring) : option Z :=
  match trimEnd (trimStart str) with
  | [] => Some 0
  | text => StrIntegerLiteral text
  end.

(** [BigInt(str)]: throws a [SyntaxError] when [StringToBigInt] is [undefined]. *)
Definition BigInt (str : jsstring) : completion Z :=
  match StringToBigInt str with
  | Some z => Normal z
  | None => Throw SyntaxError
  end.

(** ** [BigInt.prototype.toString(radix)] *)

Definition digitChar (d : Z) : N :=
  if d <? 10 then Z.to_N (d + 48) else Z.to_N (d + 87).

(** Digits of a non-negative number, prepended to [acc]; [fuel] bounds the
    number of digits produced. *)
Fixpoint toDigits (fuel : nat) (radix : Z) (n : Z) (acc : jsstring) : jsstring :=
  match fuel with
  | O => acc
  | S fuel' =>
      let acc' := digitChar (n mod radix) :: acc in
      if n / radix =? 0 then acc' else toDigits fuel' radix (n / radix) acc'
  end.

(** A number has at most [log2 n + 1] digits in any radix from 2 up. *)
Definition digitFuel (n : Z) : nat := S (Z.to_nat (Z.log2 n)).

Definition BigInt_toString (radix : Z) (v : Z) : jsstring :=
  if v <? 0 then ch "-" :: toDigits (digitFuel (- v)) radix (- v) []
  else toDigits (digitFuel v) radix v [].

(** ** [Math] *)

(** [Math.ceil(a / b)] for integral numbers [a], [b]: the quotient is kept
    exact. *)
Definition Math_ceil (x : Q) : Z := Qceiling x.

Definition Math_max (a b : Z) : Z := Z.max a b.
Definition Math_min (a b : Z) : Z := Z.min a b.

(** The quotient [a / b] of two integral numbers. *)
Definition div (a b : Z) : Q := (inject_Z a / inject_Z b)%Q.

(** ** [ArrayBuffer] and [DataView]

    A buffer is the list of its bytes; a view over the whole buffer is the
    buffer itself. Every accessor throws a [RangeError] when the bytes it
    touches are not all inside the buffer. *)

Definition ArrayBuffer (n : Z) : list Z := repeat 0 (Z.to_nat n).

Definition byteLength (view : list Z) : Z := Z.of_nat (List.length view).

Fixpoint update (i : nat) (v : Z) (l : list Z) : list Z :=
  match l, i with
  | [], _ => []
  | _ :: t, O => v :: t
  | h :: t, S i' => h :: update i' v t
  end.

(** [view.setUint8(byteOffset, value)], the value taken modulo 256. *)
Definition setUint8 (view : list Z) (byteOffset value : Z) : completion (list Z) :=
  if (0 <=? byteOffset) && (byteOffset + 1 <=? byteLength view)
  then Normal (update (Z.to_nat byteOffset) (value mod 256) view)
  else Throw RangeError.

(** The [size] bytes at [byteOffset]. *)
Definition viewBytes (view : list Z) (byteOffset size : Z) : completion (list Z) :=
  if (0 <=? byteOffset) && (byteOffset + size <=? byteLength view)
  then Normal (firstn (Z.to_nat size) (skipn (Z.to_nat byteOffset) view))
  else Throw RangeError.

(** The number a list of bytes denotes, least significant byte first. *)
Fixpoint le_value (bs : list Z) : Z :=
  match bs with
  | [] => 0
  | b :: r => b + 256 * le_value r
  end.

Definition unsignedOf (littleEndian : bool) (bs : list Z) : Z :=
  le_value (if littleEndian then bs else rev bs).

(** Two's complement reading of a [bits]-bit pattern. *)
Definition signedOf (bits : Z) (u : Z) : Z :=
  if u <? 2 ^ (bits - 1) then u else u - 2 ^ bits.

(** The IEEE 754 datum of a bit pattern with [ebits] exponent bits and
    [mbits] fraction bits. *)
Definition decodeFloat (ebits mbits : Z) (bits : Z) : spec_float :=
  let s := Z.testbit bits (ebits + mbits) in
  let e := (bits / 2 ^ mbits) mod 2 ^ ebits in
  let m := bits mod 2 ^ mbits in
  if e =? 0 then
    match m with
    | Zpos p => S754_finite s p (2 - 2 ^ (ebits - 1) - mbits)
    | _ => S754_zero s
    end
  else if e =? 2 ^ ebits - 1 then
    if m =? 0 then S754_infinity s else S754_nan
  else
    match m + 2 ^ mbits with
    | Zpos p => S754_finite s p (e - (2 ^ (ebits - 1) - 1) - mbits)
    | _ => S754_nan
    end.

Definition getInt8 (view : list Z) (byteOffset : Z) : completion Z :=
  bs <- viewBytes view byteOffset 1 ;; Normal (signedOf 8 (unsignedOf true bs)).

Definition getUint8 (view : list Z) (byteOffset : Z) : completion Z :=
  bs <- viewBytes view byteOffset 1 ;; Normal (unsignedOf true bs).

Definition getInt16 (view : list Z) (byteOffset : Z) (littleEndian : bool)
  : completion Z :=
  bs <- viewBytes view byteOffset 2 ;; Normal (signedOf 16 (unsignedOf littleEndian bs)).

Definition getUint16 (view : list Z) (byteOffset : Z) (littleEndian : bool)
  : completion Z :=
  bs <- viewBytes view byteOffset 2 ;; Normal (unsignedOf littleEndian bs).

Definition getInt32 (view : list Z) (byteOffset : Z) (littleEndian : bool)
  : completion Z :=
  bs <- viewBytes view byteOffset 4 ;; Normal (signedOf 32 (unsignedOf littleEndian bs)).

Definition getUint32 (view : list Z) (byteOffset : Z) (littleEndian : bool)
  : completion Z :=
  bs <- viewBytes view byteOffset 4 ;; Normal (unsignedOf littleEndian bs).

Definition getFloat32 (view : list Z) (byteOffset : Z) (littleEndian : bool)
  : completion spec_float :=
  bs <- viewBytes view byteOffset 4 ;;
  Normal (decodeFloat 8 23 (unsignedOf littleEndian bs)).

Definition getBigInt64 (view : list Z) (byteOffset : Z) (littleEndian : bool)
  : completion Z :=
  bs <- viewBytes view byteOffset 8 ;; Normal (signedOf 64 (unsignedOf littleEndian bs)).

Definition getBigUint64 (view : list Z) (byteOffset : Z) (littleEndian : bool)
  : completion Z :=
  bs <- viewBytes view byteOffset 8 ;; Normal (unsignedOf littleEndian bs).

Definition getFloat64 (view : list Z) (byteOffset : Z) (littleEndian : bool)
  : completion spec_float :=
  bs <- viewBytes view byteOffset 8 ;;
  Normal (decodeFloat 11 52 (unsignedOf littleEndian bs)).

(** ** Numbers, strings and arrays used by the views *)

(** [Number.prototype.toString(radix)] on an integral number: the digits are
    those of the integer. *)
Definition Number_toString (radix : Z) (v : Z) : jsstring :=
  BigInt_toString radix v.

(** [s.toUpperCase()] on an ASCII string (digit strings are): the letters
    [a-z] become [A-Z], every other ASCII character is kept. *)
Definition toUpperCase (s : jsstring) : jsstring :=
  List.map (fun c => if ((ch "a" <=? c) && (c <=? ch "z"))%N then (c - 32)%N else c) s.

(** [s.padStart(targetLength, c)] for a filler [c] of one character. *)
Definition padStart (targetLength : Z) (c : N) (s : jsstring) : jsstring :=
  repeat c (Z.to_nat (targetLength - Z.of_nat (List.length s))) ++ s.

(** [s.replace(pattern, replacement)] for a string [pattern] that is not
    empty and a [replacement] without [$]: the first occurrence only. *)
Fixpoint replace (pattern replacement s : jsstring) : jsstring :=
  if startsWith pattern s then replacement ++ skipn (List.length pattern) s
  else match s with
       | [] => []
       | c :: s' => c :: replace pattern replacement s'
       end.

(** [ToInt32], and the operators [>>] and [&] of integral numbers. *)
Definition ToInt32 (x : Z) : Z := (x + 2 ^ 31) mod 2 ^ 32 - 2 ^ 31.

Definition sar (x n : Z) : Z := Z.shiftr (ToInt32 x) ((n mod 2 ^ 32) mod 32).

Definition band (x y : Z) : Z := Z.land (ToInt32 x) (ToInt32 y).

(** [a % b] of integral numbers, [b] not zero: the sign is the dividend's. *)
Definition rem (a b : Z) : Z := Z.rem a b.

(** [arr[k]] for an integral [k]: [undefined] ([None]) outside the array. *)
Definition at_index {A : Type} (arr : list A) (k : Z) : option A :=
  if k <? 0 then None else nth_error arr (Z.to_nat k).

(** [arr.slice(start, end)]: negative positions count from the end, and
    both are clamped to the array. *)
Definition slice {A : Type} (arr : list A) (start final : Z) : list A :=
  let len := Z.of_nat (List.length arr) in
  let k := if start <? 0 then Z.max (len + start) 0 else Z.min start len in
  let e := if final <? 0 then Z.max (len + final) 0 else Z.min final len in
  firstn (Z.to_nat (e - k)) (skipn (Z.to_nat k) arr).

End JS.

Import JS.

(* ================================================================== *)
(** * utils.ts                                                         *)
(* ================================================================== *)

(** The [for] loop of [bigIntToBytes]: [n] iterations remain, [temp] and
    [bytes] are the loop's variables. *)
Fixpoint bigIntToBytes_loop (n : nat) (temp : Z) (bytes : list Z) : list Z :=
  match n with
  | O => bytes
  | S n' => bigIntToBytes_loop n' (Z.shiftr temp 8) (bytes ++ [Z.land temp 255])
  end.

(** [bigIntToBytes(value, length, isLittleEndian)], for an integral
    [length]; the loop [for (i = 0; i < length; i++)] runs [length] times,
    and not at all for a [length] that is not positive. *)
Definition bigIntToBytes (value : Z) (length : Z) (isLittleEndian : bool) : list Z :=
  let bytes := bigIntToBytes_loop (Z.to_nat length) value [] in
  if negb isLittleEndian then rev bytes else bytes.

Inductive InputType : Set := hex | dec.

(** [input.replace(/\s/g, '').replace(/_/g, '')] *)
Definition cleanInput (input : jsstring) : jsstring :=
  replace_underscore (replace_whitespace input).

(** The body of the [try] block of [parseInput]. *)
Definition parseInput_body (input : jsstring) (type : InputType) : completion Z :=
  match input with
  | [] => Normal 0
  | _ :: _ =>
      let cleanInput := cleanInput input in
      match type with
      | hex =>
          let hexStr :=
            if startsWith (js "0x") cleanInput then cleanInput
            else js "0x" ++ cleanInput in
          BigInt hexStr
      | dec => BigInt cleanInput
      end
  end.

(** [parseInput(input, type)]: any exception of the body is caught and
    replaced by [0n]. *)
Definition parseInput (input : jsstring) (type : InputType) : completion Z :=
  try_catch (parseInput_body input type) (fun _ => Normal 0).

(** [calculateMinBytes(value)] *)
Definition calculateMinBytes (value : Z) : Z :=
  if value =? 0 then 1
  else
    let absVal := if value <? 0 then - value else value in
    let hex := BigInt_toString 16 absVal in
    Math_ceil (div (Z.of_nat (List.length hex)) 2).

(** [formatHex(val, padding)]; [padding] is 2 when the caller omits it. *)
Definition formatHex (val : Z) (padding : Z) : jsstring :=
  padStart padding (ch "0") (toUpperCase (Number_toString 16 val)).


(** The colour table of [getByteColor]. *)
Definition colors : list jsstring :=
  [js "bg-red-500"; js "bg-orange-500"; js "bg-amber-500"; js "bg-yellow-500";
   js "bg-lime-500"; js "bg-green-500"; js "bg-emerald-500"; js "bg-teal-500"].

(** [getByteColor(index, total, isLittleEndian)] *)
Definition getByteColor (index total : Z) (isLittleEndian : bool) : option jsstring :=
  let significanceIndex := if isLittleEndian then index else total - 1 - index in
  at_index colors (rem significanceIndex (Z.of_nat (List.length colors))).

(** The colour table of [getByteBorderColor]. *)
Definition borderColors : list jsstring :=
  [js "border-red-500"; js "border-orange-500"; js "border-amber-500";
   js "border-yellow-500"; js "border-lime-500"; js "border-green-500";
   js "border-emerald-500"; js "border-teal-500"].

(** [getByteBorderColor(index, total, isLittleEndian)] *)
Definition getByteBorderColor (index total : Z) (isLittleEndian : bool)
  : option jsstring :=
  let significanceIndex := if isLittleEndian then index else total - 1 - index in
  at_index borderColors (rem significanceIndex (Z.of_nat (List.length borderColors))).

(* ================================================================== *)
(** * App.tsx: the derived state of [MainContent]                      *)
(* ================================================================== *)

(** The state [byteWidth : 2 | 4 | 8]. *)
Inductive ByteWidth : Set := bw2 | bw4 | bw8.

Definition bytesOf (w : ByteWidth) : Z :=
  match w with
  | bw2 => 2
  | bw4 => 4
  | bw8 => 8
  end.

(** [dynamicByteLength]: at least [byteWidth], and a multiple of it. *)
Definition dynamicByteLength (rawValue : Z) (byteWidth : ByteWidth) : Z :=
  let minBytes := calculateMinBytes rawValue in
  Math_max (bytesOf byteWidth)
           (Math_ceil (div minBytes (bytesOf byteWidth)) * bytesOf byteWidth).

(** [memoryBytes]: the bytes as they appear in memory. *)
Definition memoryBytes (rawValue : Z) (byteWidth : ByteWidth)
  (isLittleEndian : bool) : list Z :=
  bigIntToBytes rawValue (dynamicByteLength rawValue byteWidth) isLittleEndian.

(** The result object of [interpretations]; [None] is [null]. *)
Record Interpretations : Type := {
  int8 : option Z;
  uint8 : option Z;
  int16 : option Z;
  uint16 : option Z;
  int32 : option Z;
  uint32 : option Z;
  float32 : option spec_float;
  int64 : option Z;
  uint64 : option Z;
  float64 : option spec_float
}.

(** The loop [for (i = 0; i < bytesToRead; i++) view.setUint8(i, memoryBytes[i])];
    [n] iterations remain. An index outside the array reads [undefined],
    which [setUint8] stores as 0. *)
Fixpoint fillView (n : nat) (i : Z) (memoryBytes : list Z) (view : list Z)
  : completion (list Z) :=
  match n with
  | O => Normal view
  | S n' =>
      view' <- setUint8 view i (nth (Z.to_nat i) memoryBytes 0) ;;
      fillView n' (i + 1) memoryBytes view'
  end.

(** [safeGet(getter, minBytes)] inside [interpretations]; it closes over
    [bytesToRead]. *)
Definition safeGet {A : Type} (bytesToRead : Z) (getter : unit -> completion A)
  (minBytes : Z) : completion (option A) :=
  if bytesToRead <? minBytes then Normal None
  else v <- getter tt ;; Normal (Some v).

(** [interpretations]: the first 8 bytes at most, read as each type. *)
Definition interpretations (memoryBytes : list Z) (isLittleEndian : bool)
  : completion Interpretations :=
  let buffer := ArrayBuffer 8 in
  let bytesToRead := Math_min (Z.of_nat (List.length memoryBytes)) 8 in
  view <- fillView (Z.to_nat bytesToRead) 0 memoryBytes buffer ;;
  let le := isLittleEndian in
  let safeGet {A : Type} := @safeGet A bytesToRead in
  i8 <- safeGet (fun _ => getInt8 view 0) 1 ;;
  u8 <- safeGet (fun _ => getUint8 view 0) 1 ;;
  i16 <- safeGet (fun _ => getInt16 view 0 le) 2 ;;
  u16 <- safeGet (fun _ => getUint16 view 0 le) 2 ;;
  i32 <- safeGet (fun _ => getInt32 view 0 le) 4 ;;
  u32 <- safeGet (fun _ => getUint32 view 0 le) 4 ;;
  f32 <- safeGet (fun _ => getFloat32 view 0 le) 4 ;;
  i64 <- safeGet (fun _ => getBigInt64 view 0 le) 8 ;;
  u64 <- safeGet (fun _ => getBigUint64 view 0 le) 8 ;;
  f64 <- safeGet (fun _ => getFloat64 view 0 le) 8 ;;
  Normal {| int8 := i8; uint8 := u8; int16 := i16; uint16 := u16;
            int32 := i32; uint32 := u32; float32 := f32;
            int64 := i64; uint64 := u64; float64 := f64 |}.

(** One render pass: everything is recomputed from the four state
    variables. *)
Definition render (inputStr : jsstring) (inputType : InputType)
  (byteWidth : ByteWidth) (isLittleEndian : bool)
  : completion (list Z * Interpretations) :=
  rawValue <- parseInput inputStr inputType ;;
  let bytes := memoryBytes rawValue byteWidth isLittleEndian in
  r <- interpretations bytes isLittleEndian ;;
  Normal (bytes, r).

(** ** The components [BitGrid], [ByteCard] and [WordCard] *)

(** [BitGrid]: the eight bits of [byteVal], bit 7 first. *)
Definition bits (byteVal : Z) : list Z :=
  List.map (fun i => band (sar byteVal (7 - i)) 1) [0; 1; 2; 3; 4; 5; 6; 7].

(** [ByteCard]: the significance of the byte at [index]. *)
Definition significance (index totalBytes : Z) (isLittleEndian : bool) : Z :=
  if isLittleEndian then index else totalBytes - 1 - index.

(** [ByteCard]: the label of the byte at [index]; the empty string is no
    label. *)
Definition label (index totalBytes : Z) (isLittleEndian : bool) : jsstring :=
  let significance := significance index totalBytes isLittleEndian in
  if significance =? 0 then js "LSB"
  else if significance =? totalBytes - 1 then js "MSB"
  else js "".

(** [BitGrid]: the background class of a bit that is set, made from the
    border class [ByteCard] passes in,
    [colorClass.replace('border-', 'bg-')]. *)
Definition bitColor (colorClass : jsstring) : jsstring :=
  replace (js "border-") (js "bg-") colorClass.

(** [WordCard]: the loop [for (i = bytes.length - 1; i >= 0; i--)], at the
    point where [n] indices remain. *)
Fixpoint wordValue_down (n : nat) (bytes : list Z) (val : Z) : Z :=
  match n with
  | O => val
  | S i => wordValue_down i bytes (Z.lor (Z.shiftl val 8) (nth i bytes 0))
  end.

(** [WordCard]: the loop [for (i = 0; i < bytes.length; i++)]; [n]
    iterations remain. *)
Fixpoint wordValue_up (n : nat) (i : nat) (bytes : list Z) (val : Z) : Z :=
  match n with
  | O => val
  | S n' => wordValue_up n' (S i) bytes (Z.lor (Z.shiftl val 8) (nth i bytes 0))
  end.

(** [WordCard]: the value of the word, rebuilt from its bytes. *)
Definition wordValue (bytes : list Z) (isLittleEndian : bool) : Z :=
  if isLittleEndian then wordValue_down (List.length bytes) bytes 0
  else wordValue_up (List.length bytes) 0 bytes 0.

(** [WordCard]: [hexString]. *)
Definition hexString (value : Z) (wordWidth : Z) : jsstring :=
  let hexWidth := wordWidth * 2 in
  padStart hexWidth (ch "0") (toUpperCase (BigInt_toString 16 value)).

(** [WordCard]: the byte shown at [byteIndex], index 0 being the most
    significant byte of the word. *)
Definition wordByteVal (value : Z) (wordWidth : Z) (byteIndex : Z) : Z :=
  let logicalByteIndex := byteIndex in
  let shift := (wordWidth - 1 - logicalByteIndex) * 8 in
  Z.land (Z.shiftr value shift) 255.

(** [wordChunks]: the loop [for (i = 0; i < memoryBytes.length; i += byteWidth)];
    [fuel] bounds the number of iterations. *)
Fixpoint wordChunks_loop (fuel : nat) (i : Z) (memoryBytes : list Z)
  (byteWidth : Z) (chunks : list (list Z)) : list (list Z) :=
  match fuel with
  | O => chunks
  | S fuel' =>
      if i <? Z.of_nat (List.length memoryBytes) then
        wordChunks_loop fuel' (i + byteWidth) memoryBytes byteWidth
          (chunks ++ [slice memoryBytes i (i + byteWidth)])
      else chunks
  end.

(** [wordChunks]; the step is at least 2, so one unit of fuel for each byte
    is more than the loop uses. *)
Definition wordChunks (memoryBytes : list Z) (byteWidth : ByteWidth)
  : list (list Z) :=
  wordChunks_loop (List.length memoryBytes) 0 memoryBytes (bytesOf byteWidth) [].

(* ================================================================== *)
(** * Notions used to state the properties                             *)
(* ================================================================== *)

(** The sum of [byte[i] * 256^i] over the indices from [i] on. *)
Fixpoint weightedSum (i : Z) (bytes : list Z) : Z :=
  match bytes with
  | [] => 0
  | b :: rest => b * 256 ^ i + weightedSum (i + 1) rest
  end.

(** The value a byte sequence denotes when index 0 is the least
    significant byte. *)
Definition reconstruct (bytes : list Z) : Z := weightedSum 0 bytes.

(** [h] is the number of hexadecimal digits of [n]: [n] lies between
    [16^(h-1)] and [16^h]. *)
Definition hexLength (n h : Z) : Prop := 16 ^ (h - 1) <= n < 16 ^ h.

(** Character classes of the numeric grammars. *)
Definition isDecimalDigit (c : N) : bool :=
  ((ch "0" <=? c) && (c <=? ch "9"))%N.

Definition isHexDigit (c : N) : bool :=
  (isDecimalDigit c || (ch "a" <=? c) && (c <=? ch "f")
   || (ch "A" <=? c) && (c <=? ch "F"))%N.

Definition isOctalDigit (c : N) : bool :=
  ((ch "0" <=? c) && (c <=? ch "7"))%N.

Definition isBinaryDigit (c : N) : bool :=
  ((c =? ch "0") || (c =? ch "1"))%N.

(** A run of one or more digits of a class. *)
Definition digitsOf (isDigit : N -> bool) (s : jsstring) : bool :=
  match s with
  | [] => false
  | _ :: _ => forallb isDigit s
  end.

(** The value of a hexadecimal digit, and of a string of them read as a
    hexadecimal number: digit [i] from the right weighs [16^i]. *)
Definition hexDigitValue (c : N) : Z :=
  if isDecimalDigit c then Z.of_N c - Z.of_N (ch "0")
  else if (ch "a" <=? c)%N then Z.of_N c - Z.of_N (ch "a") + 10
  else Z.of_N c - Z.of_N (ch "A") + 10.

Fixpoint hexValue (s : jsstring) : Z :=
  match s with
  | [] => 0
  | c :: rest => hexDigitValue c * 16 ^ Z.of_nat (List.length rest) + hexValue rest
  end.

(** Whether a parse succeeded. *)
Definition isSome {A : Type} (o : option A) : bool :=
  match o with
  | Some _ => true
  | None => false
  end.

(** A character that stripping keeps: neither whitespace nor underscore. *)
Definition plain (c : N) : bool := negb (isWhiteSpace c) && negb (c =? ch "_")%N.

(** The letter case of a character is immaterial: both are mapped to lower
    case. *)
Definition toLowerCase (c : N) : N :=
  if ((ch "A" <=? c) && (c <=? ch "Z"))%N then (c + 32)%N else c.

(** The integer literals of the two input formats, after whitespace and
    underscores are stripped.
    - Hex: hexadecimal digits, with or without a [0x] prefix in either
      letter case.
    - Decimal: decimal digits with an optional sign, or a literal with a
      radix prefix ([0x], [0o], [0b], in either letter case). *)
Definition hexLiteral (s : jsstring) : bool :=
  digitsOf isHexDigit s
  || match s with
     | c0 :: c1 :: ds =>
         ((c0 =? ch "0") && ((c1 =? ch "x") || (c1 =? ch "X")))%N
         && digitsOf isHexDigit ds
     | _ => false
     end.

Definition decLiteral (s : jsstring) : bool :=
  digitsOf isDecimalDigit s
  || match s with
     | c :: ds => ((c =? ch "+") || (c =? ch "-"))%N && digitsOf isDecimalDigit ds
     | [] => false
     end
  || match s with
     | c0 :: c1 :: ds =>
         (c0 =? ch "0")%N
         && (((c1 =? ch "x") || (c1 =? ch "X"))%N && digitsOf isHexDigit ds
             || ((c1 =? ch "o") || (c1 =? ch "O"))%N && digitsOf isOctalDigit ds
             || ((c1 =? ch "b") || (c1 =? ch "B"))%N && digitsOf isBinaryDigit ds)
     | _ => false
     end.

(** The stripped Hex input without its [0x] prefix, if it has one. *)
Definition hexBody (s : jsstring) : jsstring :=
  if startsWith (js "0x") s then skipn 2 s else s.

Definition literal (type : InputType) (s : jsstring) : bool :=
  match type with
  | hex => hexLiteral s
  | dec => decLiteral s
  end.

(** The characters of the nominal grammar of a format: hexadecimal digits
    and the prefix letter for Hex, decimal digits and a sign for Decimal. *)
Definition inAlphabet (type : InputType) (c : N) : bool :=
  match type with
  | hex => isHexDigit c || (c =? ch "x")%N || (c =? ch "X")%N
  | dec => isDecimalDigit c || (c =? ch "-")%N || (c =? ch "+")%N
  end.

(** The stripped input has a character outside the alphabet of the format. *)
Definition hasForeignChar (type : InputType) (input : jsstring) : bool :=
  existsb (fun c => negb (inAlphabet type c)) (cleanInput input).

(** The sum of [bit[i] * 2^(7 - i)] over a list of bits, the first being
    bit 7: the byte the bits denote. *)
Definition bitsValue (bs : list Z) : Z :=
  fold_left (fun acc b => 2 * acc + b) bs 0.

(** The upper-case hexadecimal digits. *)
Definition isUpperHexDigit (c : N) : bool :=
  (isDecimalDigit c || (ch "A" <=? c) && (c <=? ch "F"))%N.

(** The number the first [w] bytes in memory denote when [v] is written on
    [n] bytes: the low [w] bytes of [v] in little-endian order, the high
    [w] bytes of the [n]-byte number in big-endian order. *)
Definition windowValue (v n : Z) (isLittleEndian : bool) (w : Z) : Z :=
  (v / 256 ^ (if isLittleEndian then 0 else n - w)) mod 256 ^ w.

(** Sanity checks on the samples of the specification. *)
Example bytes_le_sample :
  bigIntToBytes 305419896 4 true = [120; 86; 52; 18].
Proof. reflexivity. Qed.

Example bytes_be_sample :
  bigIntToBytes 305419896 4 false = [18; 52; 86; 120].
Proof. reflexivity. Qed.

Example parse_grouped_sample :
  parseInput (js "  1_234  ") dec = Normal 1234.
Proof. reflexivity. Qed.

Example parse_negative_sample :
  parseInput (js "-42") dec = Normal (-42).
Proof. reflexivity. Qed.

Example minBytes_sample : calculateMinBytes 305419896 = 4.
Proof. reflexivity. Qed.

Example minBytes_sample_odd : calculateMinBytes (-256) = 2.
Proof. reflexivity. Qed.

Example render_sample_int32 :
  match render (js "305419896") dec bw4 true with
  | Normal (bytes, r) =>
      bytes = [120; 86; 52; 18] /\ int32 r = Some 305419896 /\
      uint32 r = Some 305419896 /\ int16 r = Some 22136 /\ int64 r = None
  | Throw _ => False
  end.
Proof. vm_compute. repeat split. Qed.

Example float32_one :
  decodeFloat 8 23 1065353216 = S754_finite false 8388608 (-23).
Proof. reflexivity. Qed.

(* ================================================================== *)
(** * Tactics                                                          *)
(* ================================================================== *)

(** Unfold the character classes and evaluate the character constants, so
    that [lia] decides the comparisons of code units. *)
Ltac chars :=
  unfold plain, inAlphabet, hexDigitValue, toLowerCase, isHexDigit, isOctalDigit,
    isBinaryDigit, isDecimalDigit, isWhiteSpace in *;
  repeat match goal with
         | |- context [ch ?a] =>
             let v := eval vm_compute in (ch a) in change (ch a) with v
         | H : context [ch ?a] |- _ =>
             let v := eval vm_compute in (ch a) in change (ch a) with v in H
         end.

(* ================================================================== *)
(** * The encoder [bigIntToBytes]                                      *)
(* ================================================================== *)

Section Encoder.

Local Abbreviation extract := (fun n v => bigIntToBytes_loop n v []).

Lemma loop_acc (n : nat) : forall temp bytes,
  bigIntToBytes_loop n temp bytes = bytes ++ bigIntToBytes_loop n temp [].
Proof.
  induction n as [|n IH]; intros temp bytes; simpl.
  - now rewrite app_nil_r.
  - rewrite IH, (IH _ [Z.land temp 255]), <- app_assoc. reflexivity.
Qed.

Lemma loop_step (n : nat) (v : Z) :
  extract (S n) v = Z.land v 255 :: extract n (Z.shiftr v 8).
Proof. simpl. now rewrite loop_acc. Qed.

Lemma low_byte (v : Z) : Z.land v 255 = v mod 256.
Proof. change 255 with (Z.ones 8). now rewrite Z.land_ones by lia. Qed.

Lemma drop_byte (v : Z) : Z.shiftr v 8 = v / 256.
Proof. now rewrite Z.shiftr_div_pow2 by lia. Qed.

Lemma loop_length (n : nat) : forall v, List.length (extract n v) = n.
Proof.
  induction n as [|n IH]; intro v; [reflexivity|].
  rewrite loop_step. simpl. now rewrite IH.
Qed.

Lemma loop_range (n : nat) : forall v,
  Forall (fun b => 0 <= b <= 255) (extract n v).
Proof.
  induction n as [|n IH]; intro v; [constructor|].
  rewrite loop_step. constructor; [|apply IH].
  rewrite low_byte. pose proof (Z.mod_pos_bound v 256). lia.
Qed.

Lemma weightedSum_shift (bs : list Z) : forall i, 0 <= i ->
  weightedSum (i + 1) bs = 256 * weightedSum i bs.
Proof.
  induction bs as [|b bs IH]; intros i Hi; cbn [weightedSum]; [lia|].
  rewrite IH by lia. rewrite Z.pow_add_r by lia. change (256 ^ 1) with 256. ring.
Qed.

Lemma reconstruct_loop (n : nat) : forall v,
  reconstruct (extract n v) = v mod 256 ^ Z.of_nat n.
Proof.
  unfold reconstruct.
  induction n as [|n IH]; intro v.
  - simpl. now rewrite Z.mod_1_r.
  - rewrite loop_step. cbn [weightedSum].
    rewrite weightedSum_shift by lia.
    rewrite IH, low_byte, drop_byte.
    rewrite Nat2Z.inj_succ, Z.pow_succ_r by lia.
    rewrite Z.rem_mul_r by (try apply Z.pow_pos_nonneg; lia).
    change (256 ^ 0) with 1. ring.
Qed.

Lemma loop_nth (n : nat) : forall v i, (i < n)%nat ->
  nth i (extract n v) 0 = (v / 256 ^ Z.of_nat i) mod 256.
Proof.
  induction n as [|n IH]; intros v i Hi; [lia|].
  rewrite loop_step. destruct i as [|i].
  - simpl. now rewrite low_byte, Z.div_1_r.
  - cbn [nth]. rewrite IH by lia. rewrite drop_byte.
    rewrite Nat2Z.inj_succ, Z.pow_succ_r by lia.
    rewrite Z.div_div by (try apply Z.pow_pos_nonneg; lia).
    reflexivity.
Qed.

Lemma loop_zero (n : nat) : extract n 0 = repeat 0 n.
Proof.
  induction n as [|n IH]; [reflexivity|].
  rewrite loop_step. change (Z.shiftr 0 8) with 0. rewrite IH. reflexivity.
Qed.

Lemma rev_repeat_zero (n : nat) : rev (repeat 0 n) = repeat 0 n.
Proof.
  induction n as [|n IH]; [reflexivity|].
  simpl. rewrite IH. symmetry. apply (repeat_cons n 0).
Qed.

End Encoder.

(* ================================================================== *)
(** * [Math.ceil] of a quotient, and the length of a digit string      *)
(* ================================================================== *)

Section Digits.

(** Rounding an exact quotient up is the usual integer formula. *)
Lemma ceil_div (a b : Z) : 0 < b -> Math_ceil (div a b) = (a + b - 1) / b.
Proof.
  intro Hb. destruct b as [|p|p]; try lia.
  unfold Math_ceil, div, Qceiling, Qfloor, Qdiv, Qinv, Qmult, Qopp, inject_Z.
  cbn [Qnum Qden].
  rewrite Pos.mul_1_l, Z.mul_1_r.
  set (b := Z.pos p) in *.
  pose proof (Z.div_mod (a + b - 1) b ltac:(lia)) as E.
  pose proof (Z.mod_pos_bound (a + b - 1) b Hb) as R.
  set (q := (a + b - 1) / b) in *. set (r := (a + b - 1) mod b) in *.
  assert (H : - q = (- a) / b).
  { apply (Z.div_unique (- a) b (- q) (b - 1 - r)); lia. }
  lia.
Qed.

Lemma ceil_half (n : Z) : Math_ceil (div n 2) = (n + 1) / 2.
Proof. rewrite ceil_div by lia. f_equal. lia. Qed.

Variable radix : Z.
Hypothesis radix_ge_2 : 2 <= radix.

(** With enough fuel, a number between [radix^k] and [radix^(k+1)] gets
    [k + 1] digits. *)
Lemma toDigits_length (k : nat) : forall fuel n acc,
  (k < fuel)%nat ->
  radix ^ Z.of_nat k <= n < radix ^ (Z.of_nat k + 1) ->
  List.length (toDigits fuel radix n acc) = (S k + List.length acc)%nat.
Proof.
  induction k as [|k IH]; intros fuel n acc Hf Hn;
    (destruct fuel as [|fuel]; [lia|]); cbn [toDigits].
  - change (radix ^ Z.of_nat 0) with 1 in Hn.
    rewrite Z.pow_1_r in Hn.
    rewrite Z.div_small by lia. reflexivity.
  - rewrite Nat2Z.inj_succ in Hn.
    replace (Z.succ (Z.of_nat k) + 1) with (Z.succ (Z.succ (Z.of_nat k))) in Hn by lia.
    rewrite !Z.pow_succ_r in Hn by lia.
    assert (Hp : 0 < radix ^ Z.of_nat k) by (apply Z.pow_pos_nonneg; lia).
    assert (Hq : radix ^ Z.of_nat k <= n / radix < radix ^ (Z.of_nat k + 1)).
    { replace (Z.of_nat k + 1) with (Z.succ (Z.of_nat k)) by lia.
      rewrite Z.pow_succ_r by lia. split.
      - apply Z.div_le_lower_bound; lia.
      - apply Z.div_lt_upper_bound; lia. }
    destruct (Z.eqb_spec (n / radix) 0) as [E|_]; [lia|].
    rewrite (IH fuel (n / radix)) by (lia || exact Hq).
    simpl. lia.
Qed.

(** The fuel [BigInt_toString] passes is enough. *)
Lemma digitFuel_enough (k : nat) (n : Z) :
  radix ^ Z.of_nat k <= n -> (k < digitFuel n)%nat.
Proof.
  intro Hn. unfold digitFuel.
  assert (Hp : 0 < radix ^ Z.of_nat k) by (apply Z.pow_pos_nonneg; lia).
  assert (H2 : 2 ^ Z.of_nat k <= n).
  { transitivity (radix ^ Z.of_nat k); [|exact Hn].
    apply Z.pow_le_mono_l. lia. }
  apply Z.log2_le_pow2 in H2; lia.
Qed.

Lemma toString_length (k : nat) (n : Z) :
  radix ^ Z.of_nat k <= n < radix ^ (Z.of_nat k + 1) ->
  List.length (BigInt_toString radix n) = S k.
Proof.
  intro Hn.
  assert (Hp : 0 < radix ^ Z.of_nat k) by (apply Z.pow_pos_nonneg; lia).
  unfold BigInt_toString.
  destruct (Z.ltb_spec n 0) as [Hneg|_]; [lia|].
  rewrite (toDigits_length k) by (try apply digitFuel_enough; lia).
  simpl. lia.
Qed.

End Digits.

Section MinimumBytes.

(** [h] is the number of hexadecimal digits of the positive number [n]. *)
Lemma hexLength_pos (n h : Z) : 0 < n -> hexLength n h -> 1 <= h.
Proof.
  unfold hexLength. intros Hn [_ Hu].
  destruct (Z.le_gt_cases 1 h) as [|Hh]; [assumption|].
  exfalso.
  destruct (Z.eq_dec h 0) as [->|Hz]; [simpl in Hu; lia|].
  rewrite Z.pow_neg_r in Hu by lia. lia.
Qed.

(** Every positive number has a hexadecimal length. *)
Lemma hexLength_exists (n : Z) : 0 < n -> hexLength n (Z.log2 n / 4 + 1).
Proof.
  intro Hn. unfold hexLength.
  pose proof (Z.log2_spec n Hn) as [Hl Hu].
  pose proof (Z.log2_nonneg n) as Hnn.
  pose proof (Z.div_mod (Z.log2 n) 4 ltac:(lia)) as E.
  pose proof (Z.mod_pos_bound (Z.log2 n) 4 ltac:(lia)) as R.
  set (q := Z.log2 n / 4) in *.
  assert (Hq : 0 <= q) by (apply Z.div_pos; lia).
  change 16 with (2 ^ 4). rewrite <- !Z.pow_mul_r by lia.
  replace (q + 1 - 1) with q by lia.
  split.
  - transitivity (2 ^ Z.log2 n); [|exact Hl].
    apply Z.pow_le_mono_r; lia.
  - eapply Z.lt_le_trans; [exact Hu|].
    apply Z.pow_le_mono_r; lia.
Qed.

Lemma calculateMinBytes_hexLength (v h : Z) :
  v <> 0 -> hexLength (Z.abs v) h -> calculateMinBytes v = (h + 1) / 2.
Proof.
  intros Hv Hh.
  assert (Ha : 0 < Z.abs v) by lia.
  pose proof (hexLength_pos _ _ Ha Hh) as H1.
  unfold calculateMinBytes.
  destruct (Z.eqb_spec v 0) as [|_]; [contradiction|].
  assert (Eabs : (if v <? 0 then - v else v) = Z.abs v).
  { destruct (Z.ltb_spec v 0); lia. }
  rewrite Eabs, ceil_half.
  unfold hexLength in Hh.
  rewrite (toString_length 16 ltac:(lia) (Z.to_nat (h - 1))).
  - do 2 f_equal. lia.
  - rewrite Z2Nat.id by lia. replace (h - 1 + 1) with h by lia. exact Hh.
Qed.

Lemma calculateMinBytes_positive (v : Z) : 1 <= calculateMinBytes v.
Proof.
  destruct (Z.eq_dec v 0) as [->|Hv]; [reflexivity|].
  assert (Ha : 0 < Z.abs v) by lia.
  pose proof (hexLength_exists _ Ha) as Hh.
  pose proof (hexLength_pos _ _ Ha Hh) as H1.
  rewrite (calculateMinBytes_hexLength v _ Hv Hh).
  apply Z.div_le_lower_bound; lia.
Qed.

(** The magnitude fits in [calculateMinBytes] bytes. *)
Lemma calculateMinBytes_fits (v : Z) : Z.abs v < 256 ^ calculateMinBytes v.
Proof.
  destruct (Z.eq_dec v 0) as [->|Hv]; [reflexivity|].
  assert (Ha : 0 < Z.abs v) by lia.
  pose proof (hexLength_exists _ Ha) as Hh.
  pose proof (hexLength_pos _ _ Ha Hh) as H1.
  rewrite (calculateMinBytes_hexLength v _ Hv Hh).
  destruct Hh as [_ Hu].
  set (h := Z.log2 (Z.abs v) / 4 + 1) in *.
  eapply Z.lt_le_trans; [exact Hu|].
  pose proof (Z.div_mod (h + 1) 2 ltac:(lia)) as E.
  pose proof (Z.mod_pos_bound (h + 1) 2 ltac:(lia)) as R.
  set (q := (h + 1) / 2) in *.
  change 256 with (16 ^ 2). rewrite <- Z.pow_mul_r by lia.
  apply Z.pow_le_mono_r; lia.
Qed.

End MinimumBytes.

(* ================================================================== *)
(** * The parser [parseInput]                                          *)
(* ================================================================== *)

Section Parser.

(** ** Stripping and trimming *)

Lemma cleanInput_plain (s : jsstring) :
  forallb plain s = true -> cleanInput s = s.
Proof.
  unfold cleanInput, replace_underscore, replace_whitespace, plain.
  induction s as [|c s IH]; [reflexivity|].
  cbn [forallb filter]. intro H.
  apply andb_true_iff in H as [Hc Hs]. apply andb_true_iff in Hc as [Hw Hu].
  rewrite Hw. cbn [filter]. rewrite Hu. f_equal. now apply IH.
Qed.

Lemma cleanInput_no_whitespace (s : jsstring) :
  forallb (fun c => negb (isWhiteSpace c)) (cleanInput s) = true.
Proof.
  unfold cleanInput, replace_underscore, replace_whitespace.
  apply forallb_forall. intros c Hc.
  apply filter_In in Hc as [Hc _]. apply filter_In in Hc as [_ Hc]. exact Hc.
Qed.

Lemma trimStart_no_whitespace (s : jsstring) :
  forallb (fun c => negb (isWhiteSpace c)) s = true -> trimStart s = s.
Proof.
  destruct s as [|c s]; [reflexivity|].
  cbn [forallb trimStart]. intro H. apply andb_true_iff in H as [Hc _].
  now destruct (isWhiteSpace c).
Qed.

Lemma trim_no_whitespace (s : jsstring) :
  forallb (fun c => negb (isWhiteSpace c)) s = true ->
  trimEnd (trimStart s) = s.
Proof.
  intro H. rewrite trimStart_no_whitespace by exact H.
  unfold trimEnd. rewrite trimStart_no_whitespace, rev_involutive; [reflexivity|].
  apply forallb_forall. intros c Hc. apply in_rev in Hc.
  exact (proj1 (forallb_forall _ _) H c Hc).
Qed.

(** On a text without whitespace [BigInt] is the literal parser. *)
Lemma StringToBigInt_no_whitespace (s : jsstring) :
  forallb (fun c => negb (isWhiteSpace c)) s = true ->
  StringToBigInt s = match s with [] => Some 0 | _ => StrIntegerLiteral s end.
Proof.
  intro H. unfold StringToBigInt. rewrite (trim_no_whitespace s H).
  now destruct s.
Qed.

(** ** Digits *)

Lemma digitOf_hex (c : N) :
  isHexDigit c = true -> digitOf 16 c = Some (hexDigitValue c).
Proof.
  unfold digitOf, digitValue. chars. intro H.
  destruct ((48 <=? c) && (c <=? 57))%N eqn:E1;
    [|destruct ((97 <=? c) && (c <=? 122))%N eqn:E2;
      [|destruct ((65 <=? c) && (c <=? 90))%N eqn:E3; [|lia]]].
  - destruct (Z.ltb_spec (Z.of_N c - 48) 16); [f_equal; lia | lia].
  - destruct (Z.ltb_spec (Z.of_N c - 87) 16); [|lia].
    destruct (97 <=? c)%N eqn:E4; [f_equal; lia | lia].
  - destruct (Z.ltb_spec (Z.of_N c - 55) 16); [|lia].
    destruct (97 <=? c)%N eqn:E4; [lia | f_equal; lia].
Qed.

Lemma digitOf_class (c : N) :
  isSome (digitOf 16 c) = isHexDigit c /\
  isSome (digitOf 10 c) = isDecimalDigit c /\
  isSome (digitOf 8 c) = isOctalDigit c /\
  isSome (digitOf 2 c) = isBinaryDigit c.
Proof.
  unfold digitOf, digitValue. chars.
  destruct ((48 <=? c) && (c <=? 57))%N eqn:E1;
    [|destruct ((97 <=? c) && (c <=? 122))%N eqn:E2;
      [|destruct ((65 <=? c) && (c <=? 90))%N eqn:E3]];
    repeat split;
    repeat match goal with
           | |- context [?a <? ?b] => destruct (Z.ltb_spec a b)
           end; cbn [isSome]; lia.
Qed.

Section DigitClass.

Variable radix : Z.
Variable isDigit : N -> bool.
Hypothesis class : forall c, isSome (digitOf radix c) = isDigit c.

Lemma digitsMV_class (s : jsstring) : forall acc,
  isSome (digitsMV radix acc s) = forallb isDigit s.
Proof.
  induction s as [|c s IH]; intro acc; [reflexivity|].
  cbn [digitsMV forallb]. rewrite <- class.
  destruct (digitOf radix c); [apply IH | reflexivity].
Qed.

Lemma Digits_class (s : jsstring) :
  isSome (Digits radix s) = digitsOf isDigit s.
Proof. destruct s; [reflexivity | apply digitsMV_class]. Qed.

End DigitClass.

Lemma Digits_hex (s : jsstring) : isSome (Digits 16 s) = digitsOf isHexDigit s.
Proof. apply Digits_class. intro c. apply digitOf_class. Qed.

Lemma Digits_dec (s : jsstring) : isSome (Digits 10 s) = digitsOf isDecimalDigit s.
Proof. apply Digits_class. intro c. apply digitOf_class. Qed.

Lemma Digits_oct (s : jsstring) : isSome (Digits 8 s) = digitsOf isOctalDigit s.
Proof. apply Digits_class. intro c. apply digitOf_class. Qed.

Lemma Digits_bin (s : jsstring) : isSome (Digits 2 s) = digitsOf isBinaryDigit s.
Proof. apply Digits_class. intro c. apply digitOf_class. Qed.

(** A run of hexadecimal digits is read as its positional value. *)
Lemma digitsMV_hexValue (s : jsstring) : forall acc,
  forallb isHexDigit s = true ->
  digitsMV 16 acc s = Some (acc * 16 ^ Z.of_nat (List.length s) + hexValue s).
Proof.
  induction s as [|c s IH]; intros acc H.
  - simpl. f_equal. lia.
  - cbn [forallb] in H. apply andb_true_iff in H as [Hc Hs].
    cbn [digitsMV]. rewrite (digitOf_hex c Hc), (IH _ Hs).
    cbn [hexValue List.length]. rewrite Nat2Z.inj_succ, Z.pow_succ_r by lia.
    f_equal. ring.
Qed.

Lemma Digits_hexValue (s : jsstring) :
  digitsOf isHexDigit s = true -> Digits 16 s = Some (hexValue s).
Proof.
  destruct s as [|c s]; [discriminate|].
  unfold digitsOf, Digits. intro H. rewrite digitsMV_hexValue by exact H.
  f_equal.
Qed.

(** ** The literals [BigInt] accepts *)

Lemma isSome_opp (o : option Z) : isSome (option_map Z.opp o) = isSome o.
Proof. now destruct o. Qed.

(** [StrIntegerLiteral] succeeds exactly on the Decimal-format literals. *)
Lemma StrIntegerLiteral_accepts (s : jsstring) :
  isSome (StrIntegerLiteral s) = decLiteral s.
Proof.
  destruct s as [|c0 [|c1 ds]].
  - reflexivity.
  - unfold StrIntegerLiteral, decLiteral. rewrite Digits_dec. cbn [digitsOf].
    now rewrite andb_false_r, !orb_false_r.
  - unfold StrIntegerLiteral, decLiteral.
    repeat match goal with
           | |- context [if ?b then _ else _] => destruct b eqn:?
           end;
      rewrite ?isSome_opp, ?Digits_hex, ?Digits_dec, ?Digits_oct, ?Digits_bin;
      cbn [digitsOf forallb];
      set (D := forallb isDecimalDigit ds);
      set (H := digitsOf isHexDigit ds);
      set (O := digitsOf isOctalDigit ds);
      set (B := digitsOf isBinaryDigit ds);
      chars; lia.
Qed.

(** A text that starts with [0x] is a literal exactly when hexadecimal
    digits follow. *)
Lemma StrIntegerLiteral_0x (ds : jsstring) :
  StrIntegerLiteral (js "0x" ++ ds) = Digits 16 ds.
Proof. reflexivity. Qed.

(** ** What [parseInput] computes *)

Lemma BigInt_clean (s : jsstring) :
  forallb (fun c => negb (isWhiteSpace c)) s = true ->
  BigInt s = match s with
             | [] => Normal 0
             | _ :: _ => match StrIntegerLiteral s with
                         | Some z => Normal z
                         | None => Throw SyntaxError
                         end
             end.
Proof.
  intro H. unfold BigInt. rewrite (StringToBigInt_no_whitespace s H).
  now destruct s.
Qed.

Lemma BigInt_0x (ds : jsstring) :
  forallb (fun c => negb (isWhiteSpace c)) ds = true ->
  BigInt (js "0x" ++ ds) = match Digits 16 ds with
                           | Some z => Normal z
                           | None => Throw SyntaxError
                           end.
Proof.
  intro H. rewrite BigInt_clean; [reflexivity|].
  cbn [js list_ascii_of_string List.map app forallb]. now rewrite H.
Qed.

Lemma startsWith_0x (s : jsstring) :
  startsWith (js "0x") s = true -> exists ds, s = js "0x" ++ ds.
Proof.
  destruct s as [|c0 [|c1 ds]];
    cbn [js list_ascii_of_string List.map startsWith app]; try discriminate.
  - now rewrite andb_false_r.
  - intro H. exists ds.
    apply andb_true_iff in H as [H0 H1]. apply andb_true_iff in H1 as [H1 _].
    apply N.eqb_eq in H0, H1. now subst.
Qed.

(** The digits the Hex format hands to the literal parser: the stripped
    input without its [0x] prefix, if it has one. *)
Lemma parseInput_hex (input : jsstring) :
  input <> [] ->
  parseInput input hex =
  Normal (match Digits 16 (hexBody (cleanInput input)) with
          | Some z => z
          | None => 0
          end).
Proof.
  intro Hne. destruct input as [|c input]; [contradiction|].
  unfold parseInput, parseInput_body, hexBody.
  set (s := cleanInput (c :: input)).
  pose proof (cleanInput_no_whitespace (c :: input)) as Hs. fold s in Hs.
  destruct (startsWith (js "0x") s) eqn:E.
  - destruct (startsWith_0x s E) as [ds ->].
    rewrite BigInt_0x.
    + cbn [js list_ascii_of_string List.map app skipn].
      now destruct (Digits 16 ds).
    + cbn [js list_ascii_of_string List.map app forallb] in Hs.
      now apply andb_true_iff in Hs as [_ Hs]; apply andb_true_iff in Hs as [_ Hs].
  - rewrite BigInt_0x by exact Hs. now destruct (Digits 16 s).
Qed.

Lemma parseInput_dec (input : jsstring) :
  input <> [] ->
  parseInput input dec =
  Normal (match cleanInput input with
          | [] => 0
          | s => match StrIntegerLiteral s with
                 | Some z => z
                 | None => 0
                 end
          end).
Proof.
  intro Hne. destruct input as [|c input]; [contradiction|].
  unfold parseInput, parseInput_body.
  set (s := cleanInput (c :: input)).
  pose proof (cleanInput_no_whitespace (c :: input)) as Hs. fold s in Hs.
  rewrite (BigInt_clean s Hs).
  destruct s; [reflexivity|]. now destruct (StrIntegerLiteral _).
Qed.

End Parser.

(* ================================================================== *)
(** * Properties of the encoder                                        *)
(* ================================================================== *)

Section EncoderProperties.

Lemma bigIntToBytes_little (v L : Z) :
  bigIntToBytes v L true = bigIntToBytes_loop (Z.to_nat L) v [].
Proof. reflexivity. Qed.

Lemma bigIntToBytes_big (v L : Z) :
  bigIntToBytes v L false = rev (bigIntToBytes_loop (Z.to_nat L) v []).
Proof. reflexivity. Qed.

(** C1. Truncation law: for every integer [v], negative ones included, and
    every positive length [L], the sum of [byte[i] * 256^i] over the bytes
    of [bigIntToBytes v L] in little-endian order is [v mod 256^L], the
    non-negative remainder: only the low [L] bytes of [v] are kept. *)
Theorem bigIntToBytes_truncation (v L : Z) :
  0 < L ->
  reconstruct (bigIntToBytes v L true) = v mod 256 ^ L /\
  0 <= v mod 256 ^ L < 256 ^ L.
Proof.
  intro HL. split.
  - rewrite bigIntToBytes_little, reconstruct_loop, Z2Nat.id by lia. reflexivity.
  - apply Z.mod_pos_bound. apply Z.pow_pos_nonneg; lia.
Qed.

Lemma bigIntToBytes_truncation_witness :
  0 < 2 /\
  reconstruct (bigIntToBytes (-2) 2 true) = (-2) mod 256 ^ 2.
Proof.
  split; [lia | apply (bigIntToBytes_truncation (-2) 2); lia].
Defined.

Lemma bigIntToBytes_length (value L : Z) (isLittleEndian : bool) :
  List.length (bigIntToBytes value L isLittleEndian) = Z.to_nat L.
Proof.
  destruct isLittleEndian.
  - now rewrite bigIntToBytes_little, loop_length.
  - now rewrite bigIntToBytes_big, length_rev, loop_length.
Qed.

Lemma bigIntToBytes_range (value L : Z) (isLittleEndian : bool) :
  Forall (fun b => 0 <= b <= 255) (bigIntToBytes value L isLittleEndian).
Proof.
  destruct isLittleEndian.
  - rewrite bigIntToBytes_little. apply loop_range.
  - rewrite bigIntToBytes_big. apply Forall_rev, loop_range.
Qed.

(** C7. For every integer [value], negative ones included, every positive
    length [L] and either byte order, [bigIntToBytes value L order] has
    exactly [L] elements, each an integer from 0 to 255. *)
Theorem bigIntToBytes_shape (value L : Z) (isLittleEndian : bool) :
  0 < L ->
  Z.of_nat (List.length (bigIntToBytes value L isLittleEndian)) = L /\
  Forall (fun b => 0 <= b <= 255) (bigIntToBytes value L isLittleEndian).
Proof.
  intro HL. split.
  - rewrite bigIntToBytes_length. lia.
  - apply bigIntToBytes_range.
Qed.

Lemma bigIntToBytes_shape_witness :
  0 < 3 /\
  Z.of_nat (List.length (bigIntToBytes (-70000) 3 false)) = 3 /\
  Forall (fun b => 0 <= b <= 255) (bigIntToBytes (-70000) 3 false).
Proof.
  split; [lia | apply (bigIntToBytes_shape (-70000) 3 false); lia].
Defined.

(** C9. For every positive length [L] and either byte order,
    [bigIntToBytes 0 L order] consists of exactly [L] zero bytes. *)
Theorem bigIntToBytes_zero (L : Z) (isLittleEndian : bool) :
  0 < L ->
  bigIntToBytes 0 L isLittleEndian = repeat 0 (Z.to_nat L) /\
  Z.of_nat (List.length (bigIntToBytes 0 L isLittleEndian)) = L.
Proof.
  intro HL.
  assert (E : bigIntToBytes 0 L isLittleEndian = repeat 0 (Z.to_nat L)).
  { destruct isLittleEndian.
    - rewrite bigIntToBytes_little. apply loop_zero.
    - rewrite bigIntToBytes_big, loop_zero. apply rev_repeat_zero. }
  rewrite E, repeat_length. split; [reflexivity | lia].
Qed.

Lemma bigIntToBytes_zero_witness :
  0 < 4 /\ bigIntToBytes 0 4 false = [0; 0; 0; 0].
Proof.
  split; [lia | apply (bigIntToBytes_zero 4 false); lia].
Defined.

(** C4. For every non-negative integer [v] and every length
    [L >= calculateMinBytes v], the little-endian sequence reversed is the
    big-endian sequence, and index 0 of the big-endian sequence is the most
    significant byte [v / 256^(L-1)] of the [L]-byte number. *)
Theorem bigIntToBytes_reverse (v L : Z) :
  0 <= v ->
  calculateMinBytes v <= L ->
  rev (bigIntToBytes v L true) = bigIntToBytes v L false /\
  nth 0 (bigIntToBytes v L false) 0 = v / 256 ^ (L - 1).
Proof.
  intros Hv HL. split; [reflexivity|].
  pose proof (calculateMinBytes_positive v) as Hm.
  pose proof (calculateMinBytes_fits v) as Hfit.
  rewrite Z.abs_eq in Hfit by exact Hv.
  assert (Hlt : v < 256 ^ L).
  { eapply Z.lt_le_trans; [exact Hfit|]. apply Z.pow_le_mono_r; lia. }
  rewrite bigIntToBytes_big.
  rewrite rev_nth by (rewrite loop_length; lia).
  rewrite loop_length, loop_nth by lia.
  replace (Z.of_nat (Z.to_nat L - 1)) with (L - 1) by lia.
  apply Z.mod_small. split.
  - apply Z.div_pos; [exact Hv | apply Z.pow_pos_nonneg; lia].
  - apply Z.div_lt_upper_bound; [apply Z.pow_pos_nonneg; lia|].
    assert (E : 256 ^ L = 256 * 256 ^ (L - 1)).
    { rewrite <- Z.pow_succ_r by lia. f_equal. lia. }
    lia.
Qed.

Lemma bigIntToBytes_reverse_witness :
  0 <= 305419896 /\ calculateMinBytes 305419896 <= 4 /\
  rev (bigIntToBytes 305419896 4 true) = bigIntToBytes 305419896 4 false /\
  nth 0 (bigIntToBytes 305419896 4 false) 0 = 305419896 / 256 ^ (4 - 1).
Proof.
  assert (H0 : 0 <= 305419896) by lia.
  assert (H1 : calculateMinBytes 305419896 <= 4) by (vm_compute; discriminate).
  split; [exact H0 | split; [exact H1|]].
  exact (bigIntToBytes_reverse 305419896 4 H0 H1).
Defined.

End EncoderProperties.

(* ================================================================== *)
(** * Properties of the byte counts                                    *)
(* ================================================================== *)

Section ByteCountProperties.

(** C5. [calculateMinBytes 0 = 1]; for every nonzero [v] whose absolute
    value has [h] hexadecimal digits (which is the length of the digit
    string the code measures), [calculateMinBytes v] is [h / 2] rounded up,
    the number [m] with [h <= 2 m < h + 2]; and for every [v] the result is
    a positive integer. *)
Theorem calculateMinBytes_spec :
  calculateMinBytes 0 = 1 /\
  (forall v h : Z,
      v <> 0 ->
      hexLength (Z.abs v) h ->
      Z.of_nat (List.length (BigInt_toString 16 (Z.abs v))) = h /\
      calculateMinBytes v = (h + 1) / 2 /\
      h <= 2 * calculateMinBytes v < h + 2) /\
  (forall v : Z, 0 < calculateMinBytes v).
Proof.
  split; [reflexivity|]. split.
  - intros v h Hv Hh.
    assert (Ha : 0 < Z.abs v) by lia.
    pose proof (hexLength_pos _ _ Ha Hh) as H1.
    pose proof (calculateMinBytes_hexLength v h Hv Hh) as E.
    split; [|split; [exact E|]].
    + rewrite (toString_length 16 ltac:(lia) (Z.to_nat (h - 1))); [lia|].
      rewrite Z2Nat.id by lia. replace (h - 1 + 1) with h by lia. exact Hh.
    + rewrite E.
      pose proof (Z.div_mod (h + 1) 2 ltac:(lia)).
      pose proof (Z.mod_pos_bound (h + 1) 2 ltac:(lia)). lia.
  - intro v. pose proof (calculateMinBytes_positive v). lia.
Qed.

Lemma calculateMinBytes_spec_witness :
  -74565 <> 0 /\ hexLength (Z.abs (-74565)) 5 /\
  calculateMinBytes (-74565) = (5 + 1) / 2.
Proof.
  assert (H0 : -74565 <> 0) by lia.
  assert (H1 : hexLength (Z.abs (-74565)) 5) by (unfold hexLength; simpl; lia).
  split; [exact H0 | split; [exact H1|]].
  exact (proj1 (proj2 (proj1 (proj2 calculateMinBytes_spec) (-74565) 5 H0 H1))).
Defined.

(** C8. For every value and every word width of 2, 4 or 8 bytes, the byte
    length used for encoding is [max (w, ceil (m / w) * w)], where [m] is
    [calculateMinBytes value] and [ceil (m / w)] is the number [k] with
    [(k - 1) * w < m <= k * w]; it is positive, a multiple of [w], at least
    [m], and it is the number of bytes [memoryBytes] has. *)
Theorem dynamicByteLength_aligned (value : Z) (byteWidth : ByteWidth)
  (isLittleEndian : bool) :
  (exists k,
      (k - 1) * bytesOf byteWidth < calculateMinBytes value <= k * bytesOf byteWidth /\
      dynamicByteLength value byteWidth
      = Z.max (bytesOf byteWidth) (k * bytesOf byteWidth)) /\
  0 < dynamicByteLength value byteWidth /\
  (bytesOf byteWidth | dynamicByteLength value byteWidth) /\
  calculateMinBytes value <= dynamicByteLength value byteWidth /\
  Z.of_nat (List.length (memoryBytes value byteWidth isLittleEndian))
  = dynamicByteLength value byteWidth.
Proof.
  pose proof (calculateMinBytes_positive value) as Hm.
  set (m := calculateMinBytes value) in *.
  set (w := bytesOf byteWidth).
  assert (Hw : 2 <= w) by (subst w; destruct byteWidth; simpl; lia).
  assert (E : dynamicByteLength value byteWidth = Z.max w ((m + w - 1) / w * w)).
  { unfold dynamicByteLength, Math_max. fold m w. now rewrite ceil_div by lia. }
  pose proof (Z.div_mod (m + w - 1) w ltac:(lia)) as D.
  pose proof (Z.mod_pos_bound (m + w - 1) w ltac:(lia)) as R.
  set (k := (m + w - 1) / w) in *.
  assert (Hk : 1 <= k) by nia.
  assert (Hn : dynamicByteLength value byteWidth = k * w) by nia.
  split; [exists k; split; [nia | exact E]|].
  split; [nia|]. split; [exists k; exact Hn|]. split; [nia|].
  unfold memoryBytes. rewrite bigIntToBytes_length. nia.
Qed.

End ByteCountProperties.

(* ================================================================== *)
(** * Properties of the parser                                         *)
(* ================================================================== *)

Section ParserProperties.

Lemma hexDigit_plain (c : N) : isHexDigit c = true -> plain c = true.
Proof. chars. lia. Qed.

Lemma hexDigits_plain (s : jsstring) :
  forallb isHexDigit s = true -> forallb plain s = true.
Proof.
  intro H. apply forallb_forall. intros c Hc.
  apply hexDigit_plain. exact (proj1 (forallb_forall _ _) H c Hc).
Qed.

Lemma hexDigits_not_prefixed (s : jsstring) :
  forallb isHexDigit s = true -> startsWith (js "0x") s = false.
Proof.
  destruct s as [|c0 [|c1 s]];
    cbn [js list_ascii_of_string List.map startsWith forallb]; try reflexivity.
  - intros _. apply andb_false_r.
  - fold (ch "0") (ch "x"). chars. lia.
Qed.

Lemma hexBody_digits (s : jsstring) :
  forallb isHexDigit s = true -> hexBody (cleanInput s) = s.
Proof.
  intro H. rewrite cleanInput_plain by (apply hexDigits_plain, H).
  unfold hexBody. now rewrite hexDigits_not_prefixed.
Qed.

Lemma cleanInput_prefixed (p : jsstring) (s : jsstring) :
  forallb plain p = true -> forallb isHexDigit s = true ->
  cleanInput (p ++ s) = p ++ s.
Proof.
  intros Hp Hs. apply cleanInput_plain. rewrite forallb_app, Hp.
  now rewrite hexDigits_plain.
Qed.

(** In Hex format a string of hexadecimal digits is read as its value. *)
Lemma parseInput_hex_digits (s : jsstring) :
  forallb isHexDigit s = true -> parseInput s hex = Normal (hexValue s).
Proof.
  intro H. destruct s as [|c s]; [reflexivity|].
  rewrite parseInput_hex by discriminate.
  rewrite hexBody_digits by exact H.
  now rewrite Digits_hexValue.
Qed.

(** The [0x] prefix is optional in Hex format. *)
Lemma parseInput_hex_prefix_optional (s : jsstring) :
  forallb isHexDigit s = true ->
  parseInput (js "0x" ++ s) hex = parseInput s hex.
Proof.
  intro H. rewrite (parseInput_hex_digits s H).
  rewrite parseInput_hex by discriminate.
  rewrite (cleanInput_prefixed (js "0x") s eq_refl H).
  change (hexBody (js "0x" ++ s)) with s.
  destruct s as [|c s]; [reflexivity|]. now rewrite Digits_hexValue.
Qed.

(** The letter case of the hexadecimal digits is immaterial. *)
Lemma hexDigit_case (c d : N) :
  isHexDigit c = true -> toLowerCase c = toLowerCase d ->
  isHexDigit d = true /\ hexDigitValue d = hexDigitValue c.
Proof.
  chars. intros H E.
  destruct ((65 <=? c) && (c <=? 90))%N eqn:Ec;
    destruct ((65 <=? d) && (d <=? 90))%N eqn:Ed;
    destruct ((48 <=? c) && (c <=? 57))%N eqn:Dc;
    destruct ((48 <=? d) && (d <=? 57))%N eqn:Dd;
    destruct (97 <=? c)%N eqn:Lc; destruct (97 <=? d)%N eqn:Ld;
    split; lia.
Qed.

Lemma hexValue_case (s : jsstring) : forall t,
  forallb isHexDigit s = true ->
  List.map toLowerCase s = List.map toLowerCase t ->
  forallb isHexDigit t = true /\ hexValue t = hexValue s.
Proof.
  induction s as [|c s IH]; intros [|d t] Hs E; try discriminate.
  - now split.
  - cbn [List.map] in E. injection E as Ec Et.
    cbn [forallb] in Hs. apply andb_true_iff in Hs as [Hc Hs].
    destruct (hexDigit_case c d Hc Ec) as [Hd Hv].
    destruct (IH t Hs Et) as [Ht Hvt].
    cbn [forallb hexValue]. rewrite Hd, Ht, Hv, Hvt. split; [reflexivity|].
    do 3 f_equal.
    apply (f_equal (@List.length N)) in Et. rewrite !length_map in Et. lia.
Qed.

Lemma parseInput_hex_digit_case (s t : jsstring) :
  forallb isHexDigit s = true ->
  List.map toLowerCase s = List.map toLowerCase t ->
  parseInput t hex = parseInput s hex /\
  parseInput (js "0x" ++ t) hex = parseInput (js "0x" ++ s) hex.
Proof.
  intros Hs E. destruct (hexValue_case s t Hs E) as [Ht Hv].
  rewrite !parseInput_hex_prefix_optional by assumption.
  rewrite !parseInput_hex_digits by assumption. now rewrite Hv.
Qed.

(** An upper-case prefix [0X] is not recognised by [startsWith('0x')]: the
    code prepends [0x] once more, and the text is no literal. *)
Lemma parseInput_hex_upper_prefix (s : jsstring) :
  forallb isHexDigit s = true -> parseInput (js "0X" ++ s) hex = Normal 0.
Proof.
  intro H. rewrite parseInput_hex by discriminate.
  rewrite (cleanInput_prefixed (js "0X") s eq_refl H).
  change (hexBody (js "0X" ++ s)) with (js "0X" ++ s).
  reflexivity.
Qed.

(** C3. Hex format and the prefix written [0X]: the code returns 0 for
    ["0X1A2B"], while ["1A2B"], ["0x1A2B"] and ["0x1a2b"] give 6699;
    the Decimal format reads the same ["0X1A2B"] as 6699. *)
Theorem parseInput_hex_upper_prefix_sample :
  parseInput (js "1A2B") hex = Normal 6699 /\
  parseInput (js "0x1A2B") hex = Normal 6699 /\
  parseInput (js "0x1a2b") hex = Normal 6699 /\
  parseInput (js "0X1A2B") hex = Normal 0 /\
  parseInput (js "0X1A2B") dec = Normal 6699.
Proof. repeat split; vm_compute; reflexivity. Qed.

(** C10. In Decimal format a string of hexadecimal digits [s] behind the
    prefix [0x] is read as the hexadecimal number [s], which is what the
    Hex format makes of [s]; when [s] is not empty this is the value
    [BigInt] returns, no exception is involved. *)
Theorem parseInput_dec_accepts_0x (s : jsstring) :
  forallb isHexDigit s = true ->
  parseInput (js "0x" ++ s) dec = parseInput s hex /\
  parseInput (js "0x" ++ s) dec = Normal (hexValue s) /\
  (s <> [] -> parseInput_body (js "0x" ++ s) dec = Normal (hexValue s)).
Proof.
  intro H.
  assert (Hb : s <> [] -> parseInput_body (js "0x" ++ s) dec = Normal (hexValue s)).
  { intro Hne. change (parseInput_body (js "0x" ++ s) dec)
      with (BigInt (cleanInput (js "0x" ++ s))).
    rewrite (cleanInput_prefixed (js "0x") s eq_refl H).
    rewrite BigInt_0x.
    - rewrite Digits_hexValue; [reflexivity|]. now destruct s.
    - apply forallb_forall. intros c Hc.
      pose proof (proj1 (forallb_forall _ _) (hexDigits_plain s H) c Hc) as P.
      unfold plain in P. now apply andb_true_iff in P as [P _]. }
  assert (E : parseInput (js "0x" ++ s) dec = Normal (hexValue s)).
  { destruct s as [|c s]; [reflexivity|].
    unfold parseInput. now rewrite Hb. }
  split; [|split; [exact E | exact Hb]].
  now rewrite parseInput_hex_digits.
Qed.

Lemma parseInput_dec_accepts_0x_witness :
  forallb isHexDigit (js "1A2B") = true /\
  parseInput (js "0x" ++ js "1A2B") dec = Normal (hexValue (js "1A2B")) /\
  hexValue (js "1A2B") = 6699.
Proof.
  assert (H : forallb isHexDigit (js "1A2B") = true) by reflexivity.
  split; [exact H | split; [|reflexivity]].
  exact (proj1 (proj2 (parseInput_dec_accepts_0x (js "1A2B") H))).
Defined.

End ParserProperties.

(* ================================================================== *)
(** * Totality of the parser and its value on malformed input          *)
(* ================================================================== *)

Section ParserTotality.

Lemma isSome_false {A : Type} (o : option A) : isSome o = false -> o = None.
Proof. now destruct o. Qed.

Lemma parseInput_never_throws (input : jsstring) (type : InputType) :
  exists z, parseInput input type = Normal z.
Proof.
  unfold parseInput. destruct (parseInput_body input type) as [z|e].
  - now exists z.
  - now exists 0.
Qed.

(** Without a Hex literal there are no digits for [BigInt] to read. *)
Lemma hexLiteral_body (s : jsstring) :
  hexLiteral s = false -> Digits 16 (hexBody s) = None.
Proof.
  intro H. apply isSome_false. rewrite Digits_hex.
  unfold hexBody. destruct (startsWith (js "0x") s) eqn:E.
  - destruct (startsWith_0x s E) as [ds ->].
    cbn [js list_ascii_of_string List.map app skipn].
    unfold hexLiteral in H.
    cbn [js list_ascii_of_string List.map app] in H.
    fold (ch "0") (ch "x") in H.
    rewrite !N.eqb_refl in H. apply orb_false_iff in H as [_ H]. exact H.
  - unfold hexLiteral in H. now apply orb_false_iff in H as [H _].
Qed.

Lemma hexLiteral_alphabet (s : jsstring) :
  hexLiteral s = true -> forallb (inAlphabet hex) s = true.
Proof.
  assert (D : forall l, forallb isHexDigit l = true ->
                        forallb (inAlphabet hex) l = true).
  { intros l Hl. apply forallb_forall. intros c Hc.
    pose proof (proj1 (forallb_forall _ _) Hl c Hc) as P.
    cbn [inAlphabet]. now rewrite P. }
  unfold hexLiteral. intro H. apply orb_true_iff in H as [H|H].
  - destruct s; [discriminate|]. now apply D.
  - destruct s as [|c0 [|c1 ds]]; try discriminate.
    apply andb_true_iff in H as [P Hd].
    cbn [forallb]. rewrite D by (now destruct ds).
    clear D Hd. chars. lia.
Qed.

Lemma foreign_char_no_hexLiteral (input : jsstring) :
  hasForeignChar hex input = true -> hexLiteral (cleanInput input) = false.
Proof.
  unfold hasForeignChar. intro H.
  apply existsb_exists in H as [c [Hc Hn]].
  destruct (hexLiteral (cleanInput input)) eqn:E; [|reflexivity].
  apply hexLiteral_alphabet in E.
  rewrite (proj1 (forallb_forall _ _) E c Hc) in Hn. discriminate.
Qed.

Lemma parseInput_not_literal (input : jsstring) (type : InputType) :
  literal type (cleanInput input) = false -> parseInput input type = Normal 0.
Proof.
  intro H. destruct input as [|c input]; [reflexivity|].
  destruct type; cbn [literal] in H.
  - rewrite parseInput_hex by discriminate. now rewrite hexLiteral_body.
  - rewrite parseInput_dec by discriminate.
    rewrite <- StrIntegerLiteral_accepts in H. apply isSome_false in H.
    destruct (cleanInput (c :: input)); [reflexivity|]. now rewrite H.
Qed.

Lemma parseInput_stripped_empty (input : jsstring) (type : InputType) :
  cleanInput input = [] -> parseInput input type = Normal 0.
Proof.
  intro H. apply parseInput_not_literal. rewrite H. now destruct type.
Qed.

(** C6, as the code has it. [parseInput] never throws: it returns a value
    for every input and either format. It returns zero on the empty
    string, on an input that is empty once whitespace and underscores are
    stripped, and on every input whose stripped text is not an integer
    literal of the format: for Hex, hexadecimal digits with an optional
    [0x] or [0X] prefix (so also on any character that is neither a
    hexadecimal digit nor the prefix letter); for Decimal, decimal digits
    with an optional sign, or a literal with a radix prefix [0x], [0o] or
    [0b] in either letter case.
    In particular [parseInput "" dec = 0] and [parseInput "abc" dec = 0]. *)
Theorem parseInput_total (input : jsstring) (type : InputType) :
  (exists z, parseInput input type = Normal z) /\
  (input = [] -> parseInput input type = Normal 0) /\
  (cleanInput input = [] -> parseInput input type = Normal 0) /\
  (literal type (cleanInput input) = false -> parseInput input type = Normal 0) /\
  (hasForeignChar hex input = true -> parseInput input hex = Normal 0) /\
  parseInput (js "") dec = Normal 0 /\
  parseInput (js "abc") dec = Normal 0.
Proof.
  split; [apply parseInput_never_throws|].
  split; [now intros ->|].
  split; [apply parseInput_stripped_empty|].
  split; [apply parseInput_not_literal|].
  split; [|split; reflexivity].
  intro H. apply (parseInput_not_literal input hex).
  now apply foreign_char_no_hexLiteral.
Qed.

Lemma parseInput_total_witness :
  literal dec (cleanInput (js "12 a")) = false /\
  parseInput (js "12 a") dec = Normal 0.
Proof.
  assert (H : literal dec (cleanInput (js "12 a")) = false) by reflexivity.
  split; [exact H|].
  exact (proj1 (proj2 (proj2 (proj2 (parseInput_total (js "12 a") dec)))) H).
Defined.

(** C6 as stated fails: in Decimal format the input ["0x1A"] has the
    characters [x] and [A], which are neither decimal digits nor a sign,
    and yet the result is 26, not zero. *)
Lemma parseInput_dec_foreign_char_nonzero :
  hasForeignChar dec (js "0x1A") = true /\
  parseInput (js "0x1A") dec = Normal 26 /\
  parseInput (js "0x1A") dec <> Normal 0.
Proof.
  split; [reflexivity | split; [reflexivity | vm_compute; discriminate]].
Qed.

End ParserTotality.

(* ================================================================== *)
(** * The reinterpretation view                                        *)
(* ================================================================== *)

Section Reinterpretation.

Lemma update_length (l : list Z) : forall i v,
  List.length (update i v l) = List.length l.
Proof.
  induction l as [|h t IH]; intros [|i] v; cbn [update List.length];
    try reflexivity.
  now rewrite IH.
Qed.

(** Filling stays inside the buffer, so it never throws. *)
Lemma fillView_ok (n : nat) : forall i mb view,
  0 <= i -> i + Z.of_nat n <= byteLength view ->
  exists view', fillView n i mb view = Normal view' /\
                byteLength view' = byteLength view.
Proof.
  induction n as [|n IH]; intros i mb view Hi Hn; cbn [fillView].
  - now exists view.
  - unfold setUint8.
    destruct (Z.leb_spec 0 i); [|lia].
    destruct (Z.leb_spec (i + 1) (byteLength view)); [|lia].
    cbn [andb bind].
    set (view1 := update _ _ view).
    assert (E : byteLength view1 = byteLength view).
    { unfold byteLength, view1. now rewrite update_length. }
    destruct (IH (i + 1) mb view1) as [view' [Hf Hl]]; [lia | lia |].
    exists view'. split; [exact Hf | lia].
Qed.

Lemma viewBytes_ok (view : list Z) (size : Z) :
  size <= byteLength view -> exists bs, viewBytes view 0 size = Normal bs.
Proof.
  intro H. unfold viewBytes. cbn [Z.leb andb Z.add].
  destruct (Z.leb_spec size (byteLength view)); [|lia].
  eexists. reflexivity.
Qed.

(** [safeGet] is [null] exactly when fewer bytes were read than the type
    needs, and the getter's value otherwise. *)
Lemma safeGet_spec {A : Type} (bytesToRead : Z) (getter : unit -> completion A)
  (minBytes : Z) :
  (exists v, getter tt = Normal v) ->
  exists o, safeGet bytesToRead getter minBytes = Normal o /\
            (o = None <-> bytesToRead < minBytes).
Proof.
  intros [v Hv]. unfold safeGet.
  destruct (Z.ltb_spec bytesToRead minBytes).
  - exists None. split; [reflexivity | tauto].
  - exists (Some v). rewrite Hv. split; [reflexivity|].
    split; [discriminate | lia].
Qed.

Ltac getter_ok H :=
  match goal with
  | |- exists v, bind (viewBytes ?view 0 ?size) _ = Normal v =>
      let bs := fresh "bs" in
      let E := fresh "E" in
      destruct (viewBytes_ok view size) as [bs E];
      [rewrite H; lia | rewrite E; eexists; reflexivity]
  end.

Ltac next_field H :=
  match goal with
  | |- context [safeGet ?n ?g ?w] =>
      let o := fresh "o" in
      let E := fresh "E" in
      let I := fresh "I" in
      destruct (safeGet_spec n g w) as [o [E I]];
      [cbv beta; unfold getInt8, getUint8, getInt16, getUint16, getInt32,
         getUint32, getFloat32, getBigInt64, getBigUint64, getFloat64;
       getter_ok H
      | rewrite E; cbn [bind] ]
  end.

(** C2. [interpretations] never throws, and for each type of width [w]
    bytes (Int8, Uint8: 1; Int16, Uint16: 2; Int32, Uint32, Float32: 4;
    Int64, Uint64, Float64: 8) its field is [null] ([None]), and not a
    number, exactly when [min (number of bytes, 8) < w]. With 4 bytes the
    Int64 field is [null], which is not the value zero. *)
Theorem interpretations_unavailable (memoryBytes : list Z) (isLittleEndian : bool) :
  exists r,
    interpretations memoryBytes isLittleEndian = Normal r /\
    (int8 r = None <-> Z.min (Z.of_nat (List.length memoryBytes)) 8 < 1) /\
    (uint8 r = None <-> Z.min (Z.of_nat (List.length memoryBytes)) 8 < 1) /\
    (int16 r = None <-> Z.min (Z.of_nat (List.length memoryBytes)) 8 < 2) /\
    (uint16 r = None <-> Z.min (Z.of_nat (List.length memoryBytes)) 8 < 2) /\
    (int32 r = None <-> Z.min (Z.of_nat (List.length memoryBytes)) 8 < 4) /\
    (uint32 r = None <-> Z.min (Z.of_nat (List.length memoryBytes)) 8 < 4) /\
    (float32 r = None <-> Z.min (Z.of_nat (List.length memoryBytes)) 8 < 4) /\
    (int64 r = None <-> Z.min (Z.of_nat (List.length memoryBytes)) 8 < 8) /\
    (uint64 r = None <-> Z.min (Z.of_nat (List.length memoryBytes)) 8 < 8) /\
    (float64 r = None <-> Z.min (Z.of_nat (List.length memoryBytes)) 8 < 8) /\
    (List.length memoryBytes = 4%nat -> int64 r = None /\ int64 r <> Some 0).
Proof.
  unfold interpretations, Math_min.
  set (n := Z.min (Z.of_nat (List.length memoryBytes)) 8).
  destruct (fillView_ok (Z.to_nat n) 0 memoryBytes (ArrayBuffer 8))
    as [view [Hf Hl]]; [lia | change (byteLength (ArrayBuffer 8)) with 8; lia |].
  change (byteLength (ArrayBuffer 8)) with 8 in Hl.
  rewrite Hf. cbn [bind]. cbv zeta.
  do 10 next_field Hl.
  eexists. split; [reflexivity|].
  cbn [int8 uint8 int16 uint16 int32 uint32 float32 int64 uint64 float64].
  repeat (split; [assumption|]).
  intro H4. assert (Hn : n < 8) by lia.
  apply I6 in Hn. rewrite Hn. split; [reflexivity | discriminate].
Qed.

Lemma interpretations_unavailable_witness :
  exists r,
    interpretations [120; 86; 52; 18] true = Normal r /\
    int64 r = None /\ int64 r <> Some 0.
Proof.
  destruct (interpretations_unavailable [120; 86; 52; 18] true) as [r [E H]].
  exists r. split; [exact E|].
  exact (proj2 (proj2 (proj2 (proj2 (proj2 (proj2 (proj2 (proj2 (proj2 (proj2 H)))))))))
           eq_refl).
Defined.

End Reinterpretation.

(* ================================================================== *)
(** * The views: samples                                               *)
(* ================================================================== *)

Example formatHex_sample : formatHex 10 2 = js "0A".
Proof. reflexivity. Qed.

Example bits_sample : bits 165 = [1; 0; 1; 0; 0; 1; 0; 1].
Proof. reflexivity. Qed.

Example wordValue_sample :
  wordValue [120; 86; 52; 18] true = 305419896 /\
  wordValue [18; 52; 86; 120] false = 305419896.
Proof. split; reflexivity. Qed.

Example wordChunks_sample :
  wordChunks [1; 2; 3; 4; 5; 6; 7; 8] bw4 = [[1; 2; 3; 4]; [5; 6; 7; 8]].
Proof. reflexivity. Qed.

Example getByteColor_sample :
  getByteColor 0 4 false = Some (js "bg-yellow-500") /\
  getByteColor 5 4 false = None.
Proof. split; reflexivity. Qed.

(* ================================================================== *)
(** * Digit strings: what [toString] writes, the parser reads back     *)
(* ================================================================== *)

Section DigitStrings.

Local Abbreviation upper :=
  (fun c : N => if ((ch "a" <=? c) && (c <=? ch "z"))%N then (c - 32)%N else c).

Lemma digitsMV_app (r : Z) (x y : jsstring) : forall a,
  digitsMV r a (x ++ y) =
  match digitsMV r a x with
  | Some v => digitsMV r v y
  | None => None
  end.
Proof.
  induction x as [|c x IH]; intro a; cbn [app digitsMV]; [reflexivity|].
  destruct (digitOf r c); [apply IH | reflexivity].
Qed.

(** The character of a digit is read back as that digit, in lower case and
    in upper case. *)
Lemma digitOf_digitChar (r d : Z) :
  2 <= r <= 16 -> 0 <= d < r ->
  digitOf r (digitChar d) = Some d /\ digitOf r (upper (digitChar d)) = Some d.
Proof.
  intros Hr Hd. unfold digitOf, digitValue, digitChar. chars.
  destruct (Z.ltb_spec d 10) as [H10|H10].
  - replace ((97 <=? Z.to_N (d + 48)) && (Z.to_N (d + 48) <=? 122))%N
      with false by lia.
    replace ((48 <=? Z.to_N (d + 48)) && (Z.to_N (d + 48) <=? 57))%N
      with true by lia.
    replace (Z.of_N (Z.to_N (d + 48)) - 48) with d by lia.
    destruct (Z.ltb_spec d r); [split; reflexivity | lia].
  - replace ((97 <=? Z.to_N (d + 87)) && (Z.to_N (d + 87) <=? 122))%N
      with true by lia.
    replace ((48 <=? Z.to_N (d + 87)) && (Z.to_N (d + 87) <=? 57))%N
      with false by lia.
    replace ((48 <=? Z.to_N (d + 87) - 32) && (Z.to_N (d + 87) - 32 <=? 57))%N
      with false by lia.
    replace ((97 <=? Z.to_N (d + 87) - 32) && (Z.to_N (d + 87) - 32 <=? 122))%N
      with false by lia.
    replace ((65 <=? Z.to_N (d + 87) - 32) && (Z.to_N (d + 87) - 32 <=? 90))%N
      with true by lia.
    replace (Z.of_N (Z.to_N (d + 87)) - 87) with d by lia.
    replace (Z.of_N (Z.to_N (d + 87) - 32) - 55) with d by lia.
    destruct (Z.ltb_spec d r); [split; reflexivity | lia].
Qed.

Lemma digitChar_class (d : Z) :
  0 <= d < 16 ->
  isUpperHexDigit (upper (digitChar d)) = true /\
  (d < 10 -> isDecimalDigit (digitChar d) = true) /\
  (d < 2 -> isBinaryDigit (digitChar d) = true).
Proof.
  intro Hd. unfold digitChar, isUpperHexDigit. chars.
  destruct (Z.ltb_spec d 10).
  - replace ((97 <=? Z.to_N (d + 48)) && (Z.to_N (d + 48) <=? 122))%N
      with false by lia.
    repeat split; intros; lia.
  - replace ((97 <=? Z.to_N (d + 87)) && (Z.to_N (d + 87) <=? 122))%N
      with true by lia.
    repeat split; intros; lia.
Qed.

Variable radix : Z.
Hypothesis radix_range : 2 <= radix <= 16.

(** The digits [toDigits] writes: they are put in front of [acc], there is
    one at least, each is the character of a digit, and read back (in either
    letter case) they give the number. *)
Lemma toDigits_spec (k : nat) : forall fuel n acc,
  (k < fuel)%nat -> 0 <= n < radix ^ (Z.of_nat k + 1) ->
  exists ds,
    toDigits fuel radix n acc = ds ++ acc /\ ds <> [] /\
    Forall (fun c => exists d, 0 <= d < radix /\ c = digitChar d) ds /\
    digitsMV radix 0 ds = Some n /\
    digitsMV radix 0 (List.map upper ds) = Some n.
Proof.
  induction k as [|k IH]; intros fuel n acc Hf Hn;
    (destruct fuel as [|fuel]; [lia|]); cbn [toDigits].
  - change (Z.of_nat 0 + 1) with 1 in Hn. rewrite Z.pow_1_r in Hn.
    rewrite Z.div_small, Z.mod_small by lia. cbn [Z.eqb].
    exists [digitChar n].
    destruct (digitOf_digitChar radix n radix_range Hn) as [E1 E2].
    split; [reflexivity|]. split; [discriminate|].
    split; [constructor; [now exists n | constructor]|].
    cbn [List.map digitsMV]. rewrite E1, E2.
    split; f_equal; lia.
  - assert (Hm : 0 <= n mod radix < radix) by (apply Z.mod_pos_bound; lia).
    destruct (digitOf_digitChar radix _ radix_range Hm) as [E1 E2].
    pose proof (Z.div_mod n radix ltac:(lia)) as D.
    destruct (Z.eqb_spec (n / radix) 0) as [E|E].
    + exists [digitChar (n mod radix)].
      split; [reflexivity|]. split; [discriminate|].
      split; [constructor; [now exists (n mod radix) | constructor]|].
      cbn [List.map digitsMV]. rewrite E1, E2.
      split; f_equal; lia.
    + assert (Hq : 0 <= n / radix < radix ^ (Z.of_nat k + 1)).
      { split; [apply Z.div_pos; lia|].
        apply Z.div_lt_upper_bound; [lia|].
        rewrite <- Z.pow_succ_r by lia.
        replace (Z.succ (Z.of_nat k + 1)) with (Z.of_nat (S k) + 1) by lia.
        apply Hn. }
      destruct (IH fuel (n / radix) (digitChar (n mod radix) :: acc))
        as [ds [Eds [Hne [Hall [V1 V2]]]]]; [lia | exact Hq |].
      exists (ds ++ [digitChar (n mod radix)]).
      split; [rewrite Eds, <- app_assoc; reflexivity|].
      split; [now destruct ds|].
      split.
      { apply Forall_app. split; [exact Hall|].
        constructor; [now exists (n mod radix) | constructor]. }
      rewrite map_app, !digitsMV_app, V1, V2.
      cbn [List.map digitsMV]. rewrite E1, E2.
      split; f_equal; lia.
Qed.

(** [toString] of a number that is not negative. *)
Lemma toString_spec (n : Z) :
  0 <= n ->
  BigInt_toString radix n <> [] /\
  Forall (fun c => exists d, 0 <= d < radix /\ c = digitChar d)
         (BigInt_toString radix n) /\
  digitsMV radix 0 (BigInt_toString radix n) = Some n /\
  digitsMV radix 0 (toUpperCase (BigInt_toString radix n)) = Some n.
Proof.
  intro Hn. unfold BigInt_toString, toUpperCase.
  destruct (Z.ltb_spec n 0) as [|_]; [lia|].
  destruct (toDigits_spec (Z.to_nat (Z.log2 n)) (digitFuel n) n [])
    as [ds [E [Hne [Hall [V1 V2]]]]].
  - unfold digitFuel. lia.
  - split; [exact Hn|].
    pose proof (Z.log2_nonneg n).
    rewrite Z2Nat.id by lia.
    destruct (Z.eq_dec n 0) as [->|Hz]; [simpl; lia|].
    pose proof (Z.log2_spec n ltac:(lia)) as [_ Hu].
    eapply Z.lt_le_trans; [|apply Z.pow_le_mono_l with (a := 2); lia].
    replace (Z.log2 n + 1) with (Z.succ (Z.log2 n)) by lia. exact Hu.
  - rewrite E, app_nil_r. repeat split; assumption.
Qed.

End DigitStrings.

(* ================================================================== *)
(** * [formatHex], [formatBin] and the strings of [WordCard]           *)
(* ================================================================== *)

Section Formatting.

Local Abbreviation upper :=
  (fun c : N => if ((ch "a" <=? c) && (c <=? ch "z"))%N then (c - 32)%N else c).

Lemma digitOf_range (r : Z) (c : N) (d : Z) :
  digitOf r c = Some d -> 0 <= d < r.
Proof.
  unfold digitOf, digitValue. chars.
  destruct ((48 <=? c) && (c <=? 57))%N eqn:E1;
    [|destruct ((97 <=? c) && (c <=? 122))%N eqn:E2;
      [|destruct ((65 <=? c) && (c <=? 90))%N eqn:E3; [|discriminate]]];
    match goal with
    | |- context [?a <? r] => destruct (Z.ltb_spec a r); [|discriminate]
    end;
    intro Hd; injection Hd as <-; lia.
Qed.

(** A run of [len] digits behind the value [a] reads as a number from
    [a * r^len] up to, and not including, [(a + 1) * r^len]. *)
Lemma digitsMV_bounds (r : Z) (ds : jsstring) : forall a v,
  0 < r -> 0 <= a -> digitsMV r a ds = Some v ->
  a * r ^ Z.of_nat (List.length ds) <= v < (a + 1) * r ^ Z.of_nat (List.length ds).
Proof.
  induction ds as [|c ds IH]; intros a v Hr Ha H.
  - cbn in H. injection H as <-. cbn. lia.
  - cbn [digitsMV] in H. destruct (digitOf r c) as [d|] eqn:E; [|discriminate].
    apply digitOf_range in E.
    apply IH in H; [|lia|nia].
    cbn [List.length]. rewrite Nat2Z.inj_succ, Z.pow_succ_r by lia.
    assert (Hp : 0 < r ^ Z.of_nat (List.length ds)) by (apply Z.pow_pos_nonneg; lia).
    nia.
Qed.

Lemma toDigits_length_le (r : Z) (k : nat) : forall fuel n acc,
  2 <= r -> 0 <= n < r ^ (Z.of_nat k + 1) ->
  (List.length (toDigits fuel r n acc) <= S k + List.length acc)%nat.
Proof.
  induction k as [|k IH]; intros fuel n acc Hr Hn;
    (destruct fuel as [|fuel]; cbn [toDigits]; [lia|]).
  - change (Z.of_nat 0 + 1) with 1 in Hn. rewrite Z.pow_1_r in Hn.
    rewrite Z.div_small by lia. cbn. lia.
  - destruct (Z.eqb_spec (n / r) 0) as [_|_]; [cbn; lia|].
    assert (Hq : 0 <= n / r < r ^ (Z.of_nat k + 1)).
    { split; [apply Z.div_pos; lia|].
      apply Z.div_lt_upper_bound; [lia|].
      rewrite <- Z.pow_succ_r by lia.
      replace (Z.succ (Z.of_nat k + 1)) with (Z.of_nat (S k) + 1) by lia.
      apply Hn. }
    pose proof (IH fuel (n / r) (digitChar (n mod r) :: acc) Hr Hq) as L.
    cbn [List.length] in L. lia.
Qed.

Lemma toString_length_le (r n p : Z) :
  2 <= r -> 1 <= p -> 0 <= n < r ^ p ->
  Z.of_nat (List.length (BigInt_toString r n)) <= p.
Proof.
  intros Hr Hp Hn. unfold BigInt_toString.
  destruct (Z.ltb_spec n 0) as [|_]; [lia|].
  pose proof (toDigits_length_le r (Z.to_nat (p - 1)) (digitFuel n) n [] Hr) as L.
  rewrite Z2Nat.id in L by lia. replace (p - 1 + 1) with p in L by lia.
  specialize (L Hn). cbn [List.length] in L. lia.
Qed.

Lemma padStart_length (p : Z) (c : N) (s : jsstring) :
  Z.of_nat (List.length (padStart p c s)) = Z.max p (Z.of_nat (List.length s)).
Proof. unfold padStart. rewrite length_app, repeat_length. lia. Qed.

Lemma zeros_value (r : Z) (m : nat) : 2 <= r ->
  digitsMV r 0 (repeat (ch "0") m) = Some 0.
Proof.
  intro Hr. induction m as [|m IH]; [reflexivity|].
  cbn [repeat digitsMV].
  replace (digitOf r (ch "0")) with (Some 0); [exact IH|].
  unfold digitOf. cbn. destruct (Z.ltb_spec 0 r); [reflexivity | lia].
Qed.

Lemma padStart_value (r p n : Z) (s : jsstring) :
  2 <= r -> digitsMV r 0 s = Some n ->
  digitsMV r 0 (padStart p (ch "0") s) = Some n.
Proof.
  intros Hr H. unfold padStart. now rewrite digitsMV_app, zeros_value.
Qed.

Lemma upperHex_is_hex (s : jsstring) :
  forallb isUpperHexDigit s = true -> forallb isHexDigit s = true.
Proof.
  intro H. apply forallb_forall. intros c Hc.
  pose proof (proj1 (forallb_forall _ _) H c Hc) as P.
  revert P. unfold isUpperHexDigit. chars. lia.
Qed.

(** The padded upper-case hexadecimal string of a number that is not
    negative: upper-case digits only, and read as digits it is the number. *)
Lemma upperHex_spec (v p : Z) :
  0 <= v ->
  forallb isUpperHexDigit (padStart p (ch "0") (toUpperCase (BigInt_toString 16 v)))
  = true /\
  digitsMV 16 0 (padStart p (ch "0") (toUpperCase (BigInt_toString 16 v))) = Some v.
Proof.
  intro Hv.
  destruct (toString_spec 16 ltac:(lia) v Hv) as [_ [Hall [_ V]]].
  split; [|now apply padStart_value].
  unfold padStart. rewrite forallb_app. apply andb_true_iff. split.
  - apply forallb_forall. intros c Hc. apply repeat_spec in Hc. now subst.
  - unfold toUpperCase. apply forallb_forall. intros c Hc.
    apply in_map_iff in Hc as [c0 [<- Hc]].
    destruct (proj1 (Forall_forall _ _) Hall c0 Hc) as [d [Hd ->]].
    now apply digitChar_class.
Qed.

Lemma upperHex_value (v p : Z) :
  0 <= v ->
  hexValue (padStart p (ch "0") (toUpperCase (BigInt_toString 16 v))) = v.
Proof.
  intro Hv. destruct (upperHex_spec v p Hv) as [Hd V].
  rewrite digitsMV_hexValue in V by (now apply upperHex_is_hex).
  injection V as V. exact V.
Qed.

Lemma upperHex_length (v p : Z) :
  0 <= v ->
  (1 <= p -> v < 16 ^ p ->
   Z.of_nat (List.length (padStart p (ch "0") (toUpperCase (BigInt_toString 16 v)))) = p) /\
  (0 <= p -> 16 ^ p <= v ->
   p < Z.of_nat (List.length (padStart p (ch "0") (toUpperCase (BigInt_toString 16 v))))).
Proof.
  intro Hv. rewrite padStart_length. unfold toUpperCase. rewrite length_map.
  split.
  - intros Hp Hlt.
    pose proof (toString_length_le 16 v p ltac:(lia) Hp ltac:(lia)). lia.
  - intros Hp Hge.
    destruct (toString_spec 16 ltac:(lia) v Hv) as [_ [_ [V _]]].
    apply digitsMV_bounds in V; [|lia|lia].
    set (n := Z.of_nat (List.length (BigInt_toString 16 v))) in *.
    assert (Hn : 0 <= n) by (subst n; lia).
    destruct (Z.le_gt_cases n p) as [Hle|]; [|lia].
    assert (16 ^ n <= 16 ^ p) by (apply Z.pow_le_mono_r; lia). lia.
Qed.

End Formatting.

(* ================================================================== *)
(** * Formatting and parsing compose                                   *)
(* ================================================================== *)

Section FormatParse.

(** X6. [formatHex] and [parseInput] are inverse: for every number [val] that
    is not negative and every [padding], the Hex format reads
    [formatHex val padding] as [val]. *)
Theorem formatHex_parseInput (val padding : Z) :
  0 <= val ->
  parseInput (formatHex val padding) hex = Normal val.
Proof.
  intro Hv. unfold formatHex, Number_toString.
  destruct (upperHex_spec val padding Hv) as [Hd _].
  rewrite parseInput_hex_digits by (now apply upperHex_is_hex).
  now rewrite upperHex_value.
Qed.

Lemma formatHex_parseInput_witness :
  0 <= 48879 /\ parseInput (formatHex 48879 2) hex = Normal 48879.
Proof.
  split; [lia | apply (formatHex_parseInput 48879 2); lia].
Defined.



Lemma digitChar_plain (c : N) :
  (exists d, 0 <= d < 16 /\ c = digitChar d) -> plain c = true.
Proof.
  intros [d [Hd ->]]. unfold digitChar. chars.
  destruct (Z.ltb_spec d 10); lia.
Qed.

Lemma digits_plain (r : Z) (s : jsstring) :
  r <= 16 ->
  Forall (fun c => exists d, 0 <= d < r /\ c = digitChar d) s ->
  forallb plain s = true.
Proof.
  intros Hr H. apply forallb_forall. intros c Hc.
  destruct (proj1 (Forall_forall _ _) H c Hc) as [d [Hd ->]].
  apply digitChar_plain. exists d. split; [lia | reflexivity].
Qed.

Lemma digits_class (r : Z) (isDigit : N -> bool) (s : jsstring) :
  (forall d, 0 <= d < r -> isDigit (digitChar d) = true) ->
  Forall (fun c => exists d, 0 <= d < r /\ c = digitChar d) s ->
  forallb isDigit s = true.
Proof.
  intros Hc H. apply forallb_forall. intros c Hin.
  destruct (proj1 (Forall_forall _ _) H c Hin) as [d [Hd ->]]. now apply Hc.
Qed.



Lemma StrIntegerLiteral_decimal (s : jsstring) :
  digitsOf isDecimalDigit s = true ->
  StrIntegerLiteral s = Digits 10 s /\
  StrIntegerLiteral (ch "-" :: s) = option_map Z.opp (Digits 10 s).
Proof.
  destruct s as [|c0 [|c1 ds]]; [discriminate | |];
    unfold digitsOf; cbn [forallb]; intro H.
  - split; [reflexivity|].
    unfold StrIntegerLiteral.
    replace ((ch "-" =? ch "0") && ((c0 =? ch "x") || (c0 =? ch "X")))%N
      with false by reflexivity.
    replace ((ch "-" =? ch "0") && ((c0 =? ch "o") || (c0 =? ch "O")))%N
      with false by reflexivity.
    replace ((ch "-" =? ch "0") && ((c0 =? ch "b") || (c0 =? ch "B")))%N
      with false by reflexivity.
    reflexivity.
  - split.
    + unfold StrIntegerLiteral.
      replace ((c0 =? ch "0") && ((c1 =? ch "x") || (c1 =? ch "X")))%N
        with false by (chars; lia).
      replace ((c0 =? ch "0") && ((c1 =? ch "o") || (c1 =? ch "O")))%N
        with false by (chars; lia).
      replace ((c0 =? ch "0") && ((c1 =? ch "b") || (c1 =? ch "B")))%N
        with false by (chars; lia).
      replace (c0 =? ch "+")%N with false by (chars; lia).
      replace (c0 =? ch "-")%N with false by (chars; lia).
      reflexivity.
    + unfold StrIntegerLiteral.
      replace ((ch "-" =? ch "0") && ((c0 =? ch "x") || (c0 =? ch "X")))%N
        with false by reflexivity.
      replace ((ch "-" =? ch "0") && ((c0 =? ch "o") || (c0 =? ch "O")))%N
        with false by reflexivity.
      replace ((ch "-" =? ch "0") && ((c0 =? ch "b") || (c0 =? ch "B")))%N
        with false by reflexivity.
      reflexivity.
Qed.

(** X9. The decimal rendering of any integer, negative ones included, is read
    back by the Decimal format as that integer. *)
Theorem toString_parseInput (v : Z) :
  parseInput (BigInt_toString 10 v) dec = Normal v.
Proof.
  assert (P : forall n, 0 <= n ->
    BigInt_toString 10 n <> [] /\
    forallb plain (BigInt_toString 10 n) = true /\
    digitsOf isDecimalDigit (BigInt_toString 10 n) = true /\
    Digits 10 (BigInt_toString 10 n) = Some n).
  { intros n Hn.
    destruct (toString_spec 10 ltac:(lia) n Hn) as [Hne [Hall [V _]]].
    assert (Hd : forallb isDecimalDigit (BigInt_toString 10 n) = true).
    { apply (digits_class 10); [|exact Hall].
      intros d Hd. apply digitChar_class; lia. }
    split; [exact Hne|]. split; [apply (digits_plain 10); [lia | exact Hall]|].
    unfold digitsOf, Digits.
    destruct (BigInt_toString 10 n); [contradiction | now split]. }
  destruct (Z.le_gt_cases 0 v) as [Hv|Hv].
  - destruct (P v Hv) as [Hne [Hp [Hd V]]].
    rewrite parseInput_dec by exact Hne.
    rewrite cleanInput_plain by exact Hp.
    remember (BigInt_toString 10 v) as s eqn:Es.
    destruct s as [|c s]; [contradiction|].
    now rewrite (proj1 (StrIntegerLiteral_decimal _ Hd)), V.
  - destruct (P (- v) ltac:(lia)) as [Hne [Hp [Hd V]]].
    assert (E : BigInt_toString 10 v = ch "-" :: BigInt_toString 10 (- v)).
    { unfold BigInt_toString at 1.
      destruct (Z.ltb_spec v 0) as [_|]; [|lia].
      unfold BigInt_toString. destruct (Z.ltb_spec (- v) 0) as [|_]; [lia|].
      reflexivity. }
    rewrite E, parseInput_dec by discriminate.
    rewrite cleanInput_plain by (cbn [forallb]; now rewrite Hp).
    cbv beta iota.
    rewrite (proj2 (StrIntegerLiteral_decimal _ Hd)), V.
    cbn [option_map]. f_equal. lia.
Qed.

End FormatParse.

(* ================================================================== *)
(** * More on the parser: separators and signs                         *)
(* ================================================================== *)

Section ParserExtras.

(** The result depends on the stripped text only. *)
Lemma parseInput_cleanInput (a b : jsstring) (type : InputType) :
  cleanInput a = cleanInput b -> parseInput a type = parseInput b type.
Proof.
  intro E.
  destruct a as [|x a]; destruct b as [|y b]; [reflexivity | | |].
  - symmetry. apply parseInput_stripped_empty. now rewrite <- E.
  - apply parseInput_stripped_empty. now rewrite E.
  - destruct type.
    + rewrite !parseInput_hex by discriminate. now rewrite E.
    + rewrite !parseInput_dec by discriminate. now rewrite E.
Qed.

Lemma cleanInput_app (a b : jsstring) :
  cleanInput (a ++ b) = cleanInput a ++ cleanInput b.
Proof.
  unfold cleanInput, replace_underscore, replace_whitespace.
  now rewrite !filter_app.
Qed.

Lemma cleanInput_separator (sep : N) : plain sep = false -> cleanInput [sep] = [].
Proof.
  unfold plain, cleanInput, replace_underscore, replace_whitespace.
  intro H. cbn [filter].
  destruct (isWhiteSpace sep); cbn [negb filter] in *; [reflexivity|].
  cbn [andb] in H. now rewrite H.
Qed.

(** X10. A whitespace character or an underscore may be put anywhere in the
    input, at either end or between two digits, in either format: the
    result is the same. *)
Theorem parseInput_separator (a b : jsstring) (sep : N) (type : InputType) :
  plain sep = false ->
  parseInput (a ++ sep :: b) type = parseInput (a ++ b) type.
Proof.
  intro H. apply parseInput_cleanInput.
  change (sep :: b) with ([sep] ++ b).
  now rewrite !cleanInput_app, cleanInput_separator.
Qed.

Lemma parseInput_separator_witness :
  plain (ch "_") = false /\
  parseInput (js "12" ++ ch "_" :: js "34") dec = parseInput (js "12" ++ js "34") dec.
Proof.
  assert (H : plain (ch "_") = false) by reflexivity.
  split; [exact H | exact (parseInput_separator (js "12") (js "34") (ch "_") dec H)].
Defined.

(** X11. The Hex format never yields a negative number: whatever the input, the
    result is zero or positive (a sign is not part of a Hex literal). *)
Theorem parseInput_hex_nonnegative (input : jsstring) :
  exists z, parseInput input hex = Normal z /\ 0 <= z.
Proof.
  destruct input as [|c input]; [exists 0; split; [reflexivity | lia]|].
  rewrite parseInput_hex by discriminate.
  destruct (Digits 16 (hexBody (cleanInput (c :: input)))) as [z|] eqn:E.
  - exists z. split; [reflexivity|].
    unfold Digits in E.
    destruct (hexBody (cleanInput (c :: input))); [discriminate|].
    apply digitsMV_bounds in E; lia.
  - exists 0. split; [reflexivity | lia].
Qed.

(** X12. In Decimal format a minus sign before decimal digits negates the value
    of the digits, and a plus sign leaves it. *)
Theorem parseInput_dec_sign (s : jsstring) :
  digitsOf isDecimalDigit s = true ->
  exists n, 0 <= n /\
    parseInput s dec = Normal n /\
    parseInput (ch "-" :: s) dec = Normal (- n) /\
    parseInput (ch "+" :: s) dec = Normal n.
Proof.
  intro Hd.
  assert (Hne : s <> []) by (now destruct s).
  assert (Hp : forallb plain s = true).
  { unfold digitsOf in Hd. destruct s; [discriminate|].
    apply forallb_forall. intros c Hc.
    pose proof (proj1 (forallb_forall _ _) Hd c Hc) as P. revert P. chars. lia. }
  destruct (Digits 10 s) as [n|] eqn:V.
  2:{ pose proof (Digits_dec s) as A. rewrite V, Hd in A. discriminate. }
  exists n.
  assert (Hn : 0 <= n).
  { unfold Digits in V. destruct s; [discriminate|].
    apply digitsMV_bounds in V; lia. }
  split; [exact Hn|].
  rewrite !parseInput_dec by (discriminate || exact Hne).
  change (ch "-" :: s) with ([ch "-"] ++ s). change (ch "+" :: s) with ([ch "+"] ++ s).
  rewrite !cleanInput_app, !(cleanInput_plain s Hp).
  change (cleanInput [ch "-"]) with [ch "-"].
  change (cleanInput [ch "+"]) with [ch "+"].
  cbn [app]. destruct (StrIntegerLiteral_decimal s Hd) as [E1 E2].
  rewrite E2, V. cbn [option_map].
  destruct s as [|c s]; [contradiction|].
  rewrite E1, V. repeat split.
  unfold StrIntegerLiteral.
  replace ((ch "+" =? ch "0") && ((c =? ch "x") || (c =? ch "X")))%N
    with false by reflexivity.
  replace ((ch "+" =? ch "0") && ((c =? ch "o") || (c =? ch "O")))%N
    with false by reflexivity.
  replace ((ch "+" =? ch "0") && ((c =? ch "b") || (c =? ch "B")))%N
    with false by reflexivity.
  replace (ch "+" =? ch "+")%N with true by reflexivity.
  now rewrite V.
Qed.

Lemma parseInput_dec_sign_witness :
  digitsOf isDecimalDigit (js "042") = true /\
  exists n, 0 <= n /\ parseInput (js "042") dec = Normal n /\
            parseInput (ch "-" :: js "042") dec = Normal (- n) /\
            parseInput (ch "+" :: js "042") dec = Normal n.
Proof.
  assert (H : digitsOf isDecimalDigit (js "042") = true) by reflexivity.
  split; [exact H | exact (parseInput_dec_sign (js "042") H)].
Defined.

End ParserExtras.

(* ================================================================== *)
(** * [WordCard]: the value of a word and its bytes                    *)
(* ================================================================== *)

Section Words.

Local Abbreviation extract := (fun n v => bigIntToBytes_loop n v []).
Local Abbreviation step := (fun val b : Z => Z.lor (Z.shiftl val 8) b).
Local Abbreviation byte := (fun b : Z => 0 <= b <= 255).

Lemma firstn_snoc {A : Type} (d : A) (l : list A) : forall n,
  (n < List.length l)%nat -> firstn (S n) l = firstn n l ++ [nth n l d].
Proof.
  induction l as [|x l IH]; intros n Hn; [cbn in Hn; lia|].
  destruct n as [|n]; [reflexivity|].
  cbn [List.length] in Hn. cbn [firstn nth app]. f_equal. apply IH. lia.
Qed.

Lemma skipn_cons {A : Type} (d : A) (l : list A) : forall n,
  (n < List.length l)%nat -> skipn n l = nth n l d :: skipn (S n) l.
Proof.
  induction l as [|x l IH]; intros n Hn; [cbn in Hn; lia|].
  destruct n as [|n]; [reflexivity|].
  cbn [List.length] in Hn. cbn [skipn nth]. apply IH. lia.
Qed.

(** The downward loop folds the bytes from the last to the first. *)
Lemma wordValue_down_fold (bytes : list Z) (n : nat) : forall val,
  (n <= List.length bytes)%nat ->
  wordValue_down n bytes val = fold_left step (rev (firstn n bytes)) val.
Proof.
  induction n as [|n IH]; intros val Hn; [reflexivity|].
  cbn [wordValue_down]. rewrite IH by lia.
  rewrite (firstn_snoc 0) by lia. now rewrite rev_app_distr.
Qed.

(** The upward loop folds them from the first to the last. *)
Lemma wordValue_up_fold (bytes : list Z) (n : nat) : forall i val,
  (i + n <= List.length bytes)%nat ->
  wordValue_up n i bytes val = fold_left step (firstn n (skipn i bytes)) val.
Proof.
  induction n as [|n IH]; intros i val Hn; [reflexivity|].
  cbn [wordValue_up]. rewrite IH by lia.
  now rewrite (skipn_cons 0 bytes i) by lia.
Qed.

Lemma wordValue_fold (bytes : list Z) (isLittleEndian : bool) :
  wordValue bytes isLittleEndian
  = fold_left step (if isLittleEndian then rev bytes else bytes) 0.
Proof.
  unfold wordValue. destruct isLittleEndian.
  - rewrite wordValue_down_fold by lia. now rewrite firstn_all.
  - rewrite wordValue_up_fold by lia. cbn [skipn]. now rewrite firstn_all.
Qed.

(** Shifting by a byte and or-ing a byte in is [256 * val + b]. *)
Lemma step_value (val b : Z) : 0 <= b <= 255 -> step val b = 256 * val + b.
Proof.
  intro Hb. pose proof (Z.add_lor_land (Z.shiftl val 8) b) as E.
  replace (Z.land (Z.shiftl val 8) b) with 0 in E.
  - cbv beta. rewrite (Z.shiftl_mul_pow2 val 8) in * by lia.
    change (2 ^ 8) with 256 in *. lia.
  - symmetry. apply Z.bits_inj'. intros i Hi.
    rewrite Z.land_spec, Z.bits_0.
    destruct (Z.lt_ge_cases i 8) as [Hlt|Hge].
    + now rewrite Z.shiftl_spec_low.
    + replace (Z.testbit b i) with false; [apply andb_false_r|].
      symmetry. destruct (Z.eq_dec b 0) as [->|Hz]; [apply Z.bits_0|].
      apply Z.bits_above_log2; [lia|].
      assert (Z.log2 b < 8) by (apply Z.log2_lt_pow2; simpl; lia). lia.
Qed.

Lemma reconstruct_cons (b : Z) (bs : list Z) :
  reconstruct (b :: bs) = b + 256 * reconstruct bs.
Proof.
  unfold reconstruct. cbn [weightedSum]. rewrite weightedSum_shift by lia.
  change (256 ^ 0) with 1. lia.
Qed.

Lemma reconstruct_range (bs : list Z) :
  Forall byte bs -> 0 <= reconstruct bs < 256 ^ Z.of_nat (List.length bs).
Proof.
  induction 1 as [|b bs Hb _ IH]; [cbn; lia|].
  rewrite reconstruct_cons. cbn [List.length].
  rewrite Nat2Z.inj_succ, Z.pow_succ_r by lia. lia.
Qed.

Lemma fold_rev_reconstruct (bs : list Z) :
  Forall byte bs -> fold_left step (rev bs) 0 = reconstruct bs.
Proof.
  induction 1 as [|b bs Hb _ IH]; [reflexivity|].
  cbn [rev]. rewrite fold_left_app. cbn [fold_left].
  rewrite step_value by exact Hb. rewrite IH, reconstruct_cons. lia.
Qed.

(** The word value is the number of the bytes: the first byte is the least
    significant one in little-endian order, the most significant one in
    big-endian order. *)
Lemma wordValue_reconstruct (bytes : list Z) (isLittleEndian : bool) :
  Forall byte bytes ->
  wordValue bytes isLittleEndian
  = reconstruct (if isLittleEndian then bytes else rev bytes).
Proof.
  intro H. rewrite wordValue_fold. destruct isLittleEndian.
  - now apply fold_rev_reconstruct.
  - rewrite <- fold_rev_reconstruct by (now apply Forall_rev).
    now rewrite rev_involutive.
Qed.

Lemma reconstruct_nth (bs : list Z) : forall k,
  Forall byte bs -> (k < List.length bs)%nat ->
  (reconstruct bs / 256 ^ Z.of_nat k) mod 256 = nth k bs 0.
Proof.
  induction bs as [|b bs IH]; intros k H Hk; [cbn in Hk; lia|].
  inversion H as [|? ? Hb Hbs]; subst.
  rewrite reconstruct_cons. destruct k as [|k].
  - cbn [nth]. change (256 ^ Z.of_nat 0) with 1. rewrite Z.div_1_r.
    replace (b + 256 * reconstruct bs) with (b + reconstruct bs * 256) by lia.
    rewrite Z.mod_add by lia. apply Z.mod_small. lia.
  - cbn [nth List.length] in *. rewrite <- IH by (assumption || lia).
    rewrite Nat2Z.inj_succ, Z.pow_succ_r by lia.
    rewrite <- Z.div_div by (try apply Z.pow_pos_nonneg; lia).
    do 2 f_equal.
    replace (b + 256 * reconstruct bs) with (reconstruct bs * 256 + b) by lia.
    rewrite Z.div_add_l by lia.
    rewrite (Z.div_small b 256) by lia. lia.
Qed.

End Words.

Section WordProperties.

Local Abbreviation byte := (fun b : Z => 0 <= b <= 255).

(** X1. Rebuilding a word from the bytes [bigIntToBytes] wrote, in the same
    byte order, gives the number back, cut to the [L] bytes that were
    written: [wordValue] inverts [bigIntToBytes] in both orders. *)
Theorem wordValue_bigIntToBytes (v L : Z) (isLittleEndian : bool) :
  0 <= L ->
  wordValue (bigIntToBytes v L isLittleEndian) isLittleEndian = v mod 256 ^ L.
Proof.
  intro HL.
  rewrite wordValue_reconstruct by apply bigIntToBytes_range.
  destruct isLittleEndian.
  - rewrite bigIntToBytes_little, reconstruct_loop, Z2Nat.id by lia. reflexivity.
  - rewrite bigIntToBytes_big, rev_involutive, reconstruct_loop, Z2Nat.id by lia.
    reflexivity.
Qed.

Lemma wordValue_bigIntToBytes_witness :
  0 <= 2 /\ wordValue (bigIntToBytes (-2) 2 false) false = (-2) mod 256 ^ 2.
Proof.
  split; [lia | apply (wordValue_bigIntToBytes (-2) 2 false); lia].
Defined.

(** X2. Reading a byte sequence in one order is reading the reversed sequence
    in the other order, for any bytes whatever. *)
Theorem wordValue_byte_order (bytes : list Z) (isLittleEndian : bool) :
  wordValue (rev bytes) (negb isLittleEndian) = wordValue bytes isLittleEndian.
Proof.
  rewrite !wordValue_fold. destruct isLittleEndian; cbn [negb];
    [reflexivity | now rewrite rev_involutive].
Qed.

(** X3. [WordCard] shows the bytes of the word most significant first: the
    byte at [byteIndex] is the memory byte at that index in big-endian
    order, and the one at the mirrored index in little-endian order. *)
Theorem wordByteVal_msb_first (bytes : list Z) (isLittleEndian : bool)
  (byteIndex : Z) :
  Forall byte bytes ->
  0 <= byteIndex < Z.of_nat (List.length bytes) ->
  wordByteVal (wordValue bytes isLittleEndian) (Z.of_nat (List.length bytes))
              byteIndex
  = nth (Z.to_nat byteIndex) (if isLittleEndian then rev bytes else bytes) 0.
Proof.
  intros Hb Hj. unfold wordByteVal.
  set (w := List.length bytes) in *.
  set (k := (w - 1 - Z.to_nat byteIndex)%nat).
  rewrite low_byte, Z.shiftr_div_pow2 by lia.
  replace (2 ^ ((Z.of_nat w - 1 - byteIndex) * 8)) with (256 ^ Z.of_nat k).
  2:{ change 256 with (2 ^ 8). rewrite <- Z.pow_mul_r by lia. f_equal. lia. }
  rewrite wordValue_reconstruct by exact Hb.
  destruct isLittleEndian.
  - rewrite reconstruct_nth by (assumption || lia).
    rewrite rev_nth by lia. f_equal. lia.
  - rewrite reconstruct_nth by (try apply Forall_rev; try rewrite length_rev;
                                assumption || lia).
    rewrite rev_nth by lia. f_equal. lia.
Qed.

Lemma wordByteVal_msb_first_witness :
  Forall byte [120; 86; 52; 18] /\ 0 <= 0 < 4 /\
  wordByteVal (wordValue [120; 86; 52; 18] true) 4 0 = 18.
Proof.
  assert (H0 : Forall byte [120; 86; 52; 18])
    by (repeat constructor; cbv; discriminate).
  assert (H1 : 0 <= 0 < Z.of_nat (List.length [120; 86; 52; 18])) by (cbn; lia).
  split; [exact H0 | split; [lia|]].
  exact (wordByteVal_msb_first [120; 86; 52; 18] true 0 H0 H1).
Defined.

(** X4. The hexadecimal string of a word of [w] bytes has exactly [2 w]
    upper-case digits, and the Hex format reads it back as the word's
    value, which lies between 0 and [256^w]. *)
Theorem hexString_word (bytes : list Z) (isLittleEndian : bool) :
  Forall byte bytes -> bytes <> [] ->
  0 <= wordValue bytes isLittleEndian < 256 ^ Z.of_nat (List.length bytes) /\
  Z.of_nat (List.length (hexString (wordValue bytes isLittleEndian)
                                   (Z.of_nat (List.length bytes))))
  = 2 * Z.of_nat (List.length bytes) /\
  forallb isUpperHexDigit
    (hexString (wordValue bytes isLittleEndian) (Z.of_nat (List.length bytes)))
  = true /\
  parseInput (hexString (wordValue bytes isLittleEndian)
                        (Z.of_nat (List.length bytes))) hex
  = Normal (wordValue bytes isLittleEndian).
Proof.
  intros Hb Hne.
  assert (Hw : 1 <= Z.of_nat (List.length bytes)) by (destruct bytes; [contradiction | cbn; lia]).
  assert (R : 0 <= wordValue bytes isLittleEndian < 256 ^ Z.of_nat (List.length bytes)).
  { rewrite wordValue_reconstruct by exact Hb. destruct isLittleEndian.
    - now apply reconstruct_range.
    - rewrite <- length_rev. apply reconstruct_range. now apply Forall_rev. }
  set (v := wordValue bytes isLittleEndian) in *.
  set (w := Z.of_nat (List.length bytes)) in *.
  unfold hexString. cbv zeta.
  destruct (upperHex_spec v (w * 2) ltac:(lia)) as [Hd _].
  destruct (upperHex_length v (w * 2) ltac:(lia)) as [L _].
  split; [exact R|]. split; [|split; [exact Hd|]].
  - rewrite L; [lia | lia |].
    replace (w * 2) with (2 * w) by lia.
    rewrite Z.pow_mul_r by lia. change (16 ^ 2) with 256. lia.
  - rewrite parseInput_hex_digits by (now apply upperHex_is_hex).
    now rewrite upperHex_value by lia.
Qed.

End WordProperties.

Lemma hexString_word_witness :
  Forall (fun b => 0 <= b <= 255) [0; 171] /\ [0; 171] <> [] /\
  hexString (wordValue [0; 171] false) 2 = js "00AB" /\
  parseInput (hexString (wordValue [0; 171] false) 2) hex
  = Normal (wordValue [0; 171] false).
Proof.
  assert (H0 : Forall (fun b => 0 <= b <= 255) [0; 171])
    by (repeat constructor; cbv; discriminate).
  assert (H1 : [0; 171] <> []) by discriminate.
  split; [exact H0 | split; [exact H1 | split; [reflexivity|]]].
  exact (proj2 (proj2 (proj2 (hexString_word [0; 171] false H0 H1)))).
Defined.

(* ================================================================== *)
(** * [BitGrid]: the bits of a byte                                    *)
(* ================================================================== *)

Section Bits.

Lemma ToInt32_testbit (x k : Z) :
  0 <= k < 32 -> Z.testbit (ToInt32 x) k = Z.testbit x k.
Proof.
  intro Hk.
  rewrite <- (Z.mod_pow2_bits_low (ToInt32 x) 32 k) by lia.
  rewrite <- (Z.mod_pow2_bits_low x 32 k) by lia.
  f_equal. unfold ToInt32.
  pose proof (Z.div_mod (x + 2 ^ 31) (2 ^ 32) ltac:(lia)) as D.
  replace ((x + 2 ^ 31) mod 2 ^ 32 - 2 ^ 31)
    with (x + (- ((x + 2 ^ 31) / 2 ^ 32)) * 2 ^ 32) by lia.
  apply Z.mod_add. lia.
Qed.

(** The operators of [BitGrid] pick bit [k] of the byte. *)
Lemma bit_value (x k : Z) :
  0 <= k < 32 -> band (sar x k) 1 = Z.b2z (Z.testbit x k).
Proof.
  intro Hk. unfold band, sar.
  rewrite (Z.mod_small k (2 ^ 32)) by lia. rewrite (Z.mod_small k 32) by lia.
  change (ToInt32 1) with (Z.ones 1). rewrite Z.land_ones by lia.
  change (2 ^ 1) with 2. rewrite <- Z.bit0_mod.
  rewrite ToInt32_testbit by lia.
  rewrite Z.shiftr_spec by lia. cbn [Z.add].
  now rewrite ToInt32_testbit by lia.
Qed.

Lemma mod_pow2_succ (x n : Z) :
  0 <= n -> x mod 2 ^ (n + 1) = x mod 2 ^ n + 2 ^ n * Z.b2z (Z.testbit x n).
Proof.
  intro Hn. rewrite Z.testbit_spec' by lia.
  rewrite Z.pow_add_r, Z.pow_1_r by lia.
  apply Z.rem_mul_r; [|lia]. apply Z.pow_nonzero; lia.
Qed.

(** X5. For every number [byteVal], [BitGrid] shows eight bits, each 0 or 1,
    bit 7 first, and they are the binary digits of the byte: their
    weighted sum is [byteVal mod 256], so it is [byteVal] itself for a
    byte. *)
Theorem bits_of_byte (byteVal : Z) :
  bits byteVal
  = List.map (fun k => Z.b2z (Z.testbit byteVal k)) [7; 6; 5; 4; 3; 2; 1; 0] /\
  Forall (fun b => b = 0 \/ b = 1) (bits byteVal) /\
  bitsValue (bits byteVal) = byteVal mod 256.
Proof.
  assert (E : bits byteVal
    = List.map (fun k => Z.b2z (Z.testbit byteVal k)) [7; 6; 5; 4; 3; 2; 1; 0]).
  { unfold bits. cbn [List.map]. cbn [Z.sub Z.add Z.opp Z.pos_sub Pos.pred_double].
    now rewrite !bit_value by lia. }
  split; [exact E|]. rewrite E. split.
  - cbn [List.map].
    repeat (apply Forall_cons; [destruct (Z.testbit byteVal _); cbn; auto|]).
    apply Forall_nil.
  - pose proof (mod_pow2_succ byteVal 7 ltac:(lia)) as M7.
    pose proof (mod_pow2_succ byteVal 6 ltac:(lia)) as M6.
    pose proof (mod_pow2_succ byteVal 5 ltac:(lia)) as M5.
    pose proof (mod_pow2_succ byteVal 4 ltac:(lia)) as M4.
    pose proof (mod_pow2_succ byteVal 3 ltac:(lia)) as M3.
    pose proof (mod_pow2_succ byteVal 2 ltac:(lia)) as M2.
    pose proof (mod_pow2_succ byteVal 1 ltac:(lia)) as M1.
    pose proof (mod_pow2_succ byteVal 0 ltac:(lia)) as M0.
    change (2 ^ (7 + 1)) with 256 in M7. change (2 ^ 7) with 128 in M7.
    change (2 ^ (6 + 1)) with 128 in M6. change (2 ^ 6) with 64 in M6.
    change (2 ^ (5 + 1)) with 64 in M5. change (2 ^ 5) with 32 in M5.
    change (2 ^ (4 + 1)) with 32 in M4. change (2 ^ 4) with 16 in M4.
    change (2 ^ (3 + 1)) with 16 in M3. change (2 ^ 3) with 8 in M3.
    change (2 ^ (2 + 1)) with 8 in M2. change (2 ^ 2) with 4 in M2.
    change (2 ^ (1 + 1)) with 4 in M1. change (2 ^ 1) with 2 in M1.
    change (2 ^ (0 + 1)) with 2 in M0. change (2 ^ 0) with 1 in M0.
    rewrite Z.mod_1_r in M0.
    unfold bitsValue. cbn [List.map fold_left]. lia.
Qed.

End Bits.

(* ================================================================== *)
(** * [ByteCard]: colours and labels                                   *)
(* ================================================================== *)

Section Colours.

Local Abbreviation extract := (fun n v => bigIntToBytes_loop n v []).

Lemma rem8_bound (s : Z) : -8 < Z.rem s 8 < 8.
Proof. pose proof (Z.rem_bound_abs s 8 ltac:(lia)). lia. Qed.

(** The two tables agree entry by entry, up to [border-] for [bg-]. *)
Lemma tables_agree (r : Z) :
  option_map bitColor (at_index borderColors r) = at_index colors r.
Proof.
  unfold at_index. destruct (Z.ltb_spec r 0); [reflexivity|].
  destruct (Z.to_nat r) as [|[|[|[|[|[|[|[|n]]]]]]]]; try reflexivity.
  now destruct n.
Qed.

Lemma border_bg (index total : Z) (isLittleEndian : bool) :
  option_map bitColor (getByteBorderColor index total isLittleEndian)
  = getByteColor index total isLittleEndian.
Proof. unfold getByteBorderColor, getByteColor. apply tables_agree. Qed.

(** X13. [colorClass.replace('border-', 'bg-')] in [BitGrid] turns the border
    colour of a byte into the background colour [getByteColor] gives that
    byte, whatever the index (both are [undefined] together). *)
Theorem bitColor_getByteBorderColor (index total : Z) (isLittleEndian : bool) :
  option_map bitColor (getByteBorderColor index total isLittleEndian)
  = getByteColor index total isLittleEndian.
Proof. apply border_bg. Qed.

(** X14. Every byte of the array has a colour: for an index inside the array
    the result is the table entry at [significance mod 8], never
    [undefined]. *)
Theorem getByteColor_in_range (index total : Z) (isLittleEndian : bool) :
  0 <= index < total ->
  getByteColor index total isLittleEndian
  = nth_error colors (Z.to_nat (significance index total isLittleEndian mod 8)) /\
  getByteColor index total isLittleEndian <> None /\
  getByteBorderColor index total isLittleEndian <> None.
Proof.
  intro Hi.
  assert (Hs : 0 <= significance index total isLittleEndian)
    by (unfold significance; destruct isLittleEndian; lia).
  assert (E : getByteColor index total isLittleEndian
              = nth_error colors
                  (Z.to_nat (significance index total isLittleEndian mod 8))).
  { unfold getByteColor. fold (significance index total isLittleEndian).
    change (Z.of_nat (List.length colors)) with 8. unfold rem, at_index.
    rewrite Z.rem_mod_nonneg by lia.
    pose proof (Z.mod_pos_bound (significance index total isLittleEndian) 8).
    destruct (Z.ltb_spec (significance index total isLittleEndian mod 8) 0);
      [lia | reflexivity]. }
  assert (D : getByteColor index total isLittleEndian <> None).
  { rewrite E. apply nth_error_Some.
    pose proof (Z.mod_pos_bound (significance index total isLittleEndian) 8).
    change (List.length colors) with 8%nat. lia. }
  split; [exact E | split; [exact D|]].
  intro N. apply D. rewrite <- border_bg. now rewrite N.
Qed.

Lemma getByteColor_in_range_witness :
  0 <= 9 < 16 /\ getByteColor 9 16 true = Some (js "bg-orange-500").
Proof.
  assert (H : 0 <= 9 < 16) by lia.
  split; [exact H | exact (proj1 (getByteColor_in_range 9 16 true H))].
Defined.

(** X15. Outside the array there is no colour in general: when the significance
    is negative (an index past the end in big-endian order, a negative
    index in little-endian order) and not a multiple of 8, both functions
    return [undefined]. *)
Theorem getByteColor_out_of_range (index total : Z) (isLittleEndian : bool) :
  significance index total isLittleEndian < 0 ->
  significance index total isLittleEndian mod 8 <> 0 ->
  getByteColor index total isLittleEndian = None /\
  getByteBorderColor index total isLittleEndian = None.
Proof.
  intros Hs Hm.
  assert (R : Z.rem (significance index total isLittleEndian) 8 < 0).
  { pose proof (Z.rem_nonpos (significance index total isLittleEndian) 8
                  ltac:(lia) ltac:(lia)) as B.
    destruct (Z.eq_dec (Z.rem (significance index total isLittleEndian) 8) 0)
      as [E|]; [|lia].
    apply Z.rem_divide in E; [|lia]. apply Z.mod_divide in E; lia. }
  unfold getByteColor, getByteBorderColor.
  fold (significance index total isLittleEndian).
  change (Z.of_nat (List.length colors)) with 8.
  change (Z.of_nat (List.length borderColors)) with 8.
  unfold rem, at_index.
  destruct (Z.ltb_spec (Z.rem (significance index total isLittleEndian) 8) 0);
    [now split | lia].
Qed.

Lemma getByteColor_out_of_range_witness :
  significance 5 4 false < 0 /\ significance 5 4 false mod 8 <> 0 /\
  getByteColor 5 4 false = None.
Proof.
  assert (H0 : significance 5 4 false < 0) by (cbv; reflexivity).
  assert (H1 : significance 5 4 false mod 8 <> 0) by (cbv; discriminate).
  split; [exact H0 | split; [exact H1|]].
  exact (proj1 (getByteColor_out_of_range 5 4 false H0 H1)).
Defined.

(** The byte at [index] is the byte of that significance of the number:
    [(v / 256^significance) mod 256] in both byte orders. *)
Lemma byte_at_significance (v n index : Z) (isLittleEndian : bool) :
  0 <= index < n ->
  nth (Z.to_nat index) (bigIntToBytes v n isLittleEndian) 0
  = (v / 256 ^ significance index n isLittleEndian) mod 256.
Proof.
  intro Hi. unfold significance. destruct isLittleEndian.
  - rewrite bigIntToBytes_little, loop_nth by lia. now rewrite Z2Nat.id by lia.
  - rewrite bigIntToBytes_big, rev_nth by (rewrite loop_length; lia).
    rewrite loop_length, loop_nth by lia. do 3 f_equal. lia.
Qed.

(** X16. The colour follows the byte, not the position: the byte at [index] in
    little-endian order is the byte at the mirrored index in big-endian
    order, and the two get the same border and background colour. *)
Theorem colour_follows_byte (v n index : Z) :
  0 <= index < n ->
  nth (Z.to_nat index) (bigIntToBytes v n true) 0
  = nth (Z.to_nat (n - 1 - index)) (bigIntToBytes v n false) 0 /\
  getByteBorderColor index n true = getByteBorderColor (n - 1 - index) n false /\
  getByteColor index n true = getByteColor (n - 1 - index) n false.
Proof.
  intro Hi. split.
  - rewrite !byte_at_significance by lia. unfold significance.
    do 3 f_equal. lia.
  - unfold getByteBorderColor, getByteColor.
    replace (n - 1 - (n - 1 - index)) with index by lia. now split.
Qed.

Lemma colour_follows_byte_witness :
  0 <= 1 < 4 /\
  nth 1 (bigIntToBytes 305419896 4 true) 0 = nth 2 (bigIntToBytes 305419896 4 false) 0 /\
  getByteBorderColor 1 4 true = getByteBorderColor 2 4 false.
Proof.
  assert (H : 0 <= 1 < 4) by lia.
  split; [exact H|].
  split; [exact (proj1 (colour_follows_byte 305419896 4 1 H))
         | exact (proj1 (proj2 (colour_follows_byte 305419896 4 1 H)))].
Defined.

(** X17. The labels are right: for the bytes [bigIntToBytes] wrote, the byte
    labelled LSB is [v mod 256], the byte labelled MSB is the byte of
    weight [256^(n-1)], exactly one index carries each label, and a single
    byte is labelled LSB, not MSB. *)
Theorem label_marks_significance (v n index : Z) (isLittleEndian : bool) :
  0 <= index < n ->
  (label index n isLittleEndian = js "LSB" <->
   index = (if isLittleEndian then 0 else n - 1)) /\
  (label index n isLittleEndian = js "MSB" <->
   index = (if isLittleEndian then n - 1 else 0) /\ 1 < n) /\
  (label index n isLittleEndian = js "LSB" ->
   nth (Z.to_nat index) (bigIntToBytes v n isLittleEndian) 0 = v mod 256) /\
  (label index n isLittleEndian = js "MSB" ->
   nth (Z.to_nat index) (bigIntToBytes v n isLittleEndian) 0
   = (v / 256 ^ (n - 1)) mod 256).
Proof.
  intro Hi.
  assert (N1 : js "MSB" <> js "LSB") by (cbv; discriminate).
  assert (N2 : js "" <> js "LSB") by (cbv; discriminate).
  assert (N3 : js "" <> js "MSB") by (cbv; discriminate).
  assert (N4 : js "LSB" <> js "MSB") by (cbv; discriminate).
  rewrite (byte_at_significance v n index isLittleEndian Hi).
  unfold label. cbv zeta.
  set (s := significance index n isLittleEndian).
  assert (Es : s = if isLittleEndian then index else n - 1 - index) by reflexivity.
  destruct (Z.eqb_spec s 0) as [E0|E0];
    [|destruct (Z.eqb_spec s (n - 1)) as [E1|E1]].
  - rewrite E0. change (256 ^ 0) with 1. rewrite Z.div_1_r.
    repeat split; intros;
      repeat match goal with H : _ /\ _ |- _ => destruct H end;
      try congruence; destruct isLittleEndian; lia.
  - rewrite E1.
    repeat split; intros;
      repeat match goal with H : _ /\ _ |- _ => destruct H end;
      try congruence; destruct isLittleEndian; lia.
  - repeat split; intros;
      repeat match goal with H : _ /\ _ |- _ => destruct H end;
      try congruence; destruct isLittleEndian; lia.
Qed.

Lemma label_marks_significance_witness :
  0 <= 3 < 4 /\ label 3 4 false = js "LSB" /\
  nth 3 (bigIntToBytes 305419896 4 false) 0 = 305419896 mod 256.
Proof.
  assert (H : 0 <= 3 < 4) by lia.
  split; [exact H | split; [reflexivity|]].
  exact (proj1 (proj2 (proj2 (label_marks_significance 305419896 4 3 false H)))
           eq_refl).
Defined.

End Colours.

(* ================================================================== *)
(** * [wordChunks]: cutting the bytes into words                       *)
(* ================================================================== *)

Section Chunks.

Local Abbreviation extract := (fun n v => bigIntToBytes_loop n v []).

Variable bytes : list Z.
Variable w : Z.
Hypothesis w_pos : 0 < w.

Local Abbreviation len := (Z.of_nat (List.length bytes)).

(** Inside the array a slice of [w] bytes is [w] bytes from the start
    position on, or what is left of the array there. *)
Lemma slice_chunk (i : Z) :
  0 <= i < len ->
  slice bytes i (i + w) = firstn (Z.to_nat w) (skipn (Z.to_nat i) bytes).
Proof.
  intro Hi. unfold slice. cbv zeta.
  destruct (Z.ltb_spec i 0); [lia|]. destruct (Z.ltb_spec (i + w) 0); [lia|].
  rewrite (Z.min_l i) by lia.
  destruct (Z.le_gt_cases (i + w) len).
  - rewrite Z.min_l by lia. f_equal. lia.
  - rewrite Z.min_r by lia.
    rewrite !firstn_all2; [reflexivity | |]; rewrite length_skipn; lia.
Qed.

(** The loop appends to [chunks] pieces of 1 to [w] bytes that make up the
    rest of the array from position [i] on. *)
Lemma wordChunks_loop_spec (fuel : nat) : forall i chunks,
  0 <= i -> len - i <= Z.of_nat fuel ->
  exists tail,
    wordChunks_loop fuel i bytes w chunks = chunks ++ tail /\
    List.concat tail = skipn (Z.to_nat i) bytes /\
    Forall (fun c => 1 <= Z.of_nat (List.length c) <= w) tail.
Proof.
  induction fuel as [|fuel IH]; intros i chunks Hi Hf; cbn [wordChunks_loop].
  - exists []. rewrite app_nil_r, skipn_all2 by lia. now repeat split.
  - destruct (Z.ltb_spec i len) as [Hlt|Hge].
    + destruct (IH (i + w) (chunks ++ [slice bytes i (i + w)]))
        as [tail [E [C F]]]; [lia | lia |].
      exists (slice bytes i (i + w) :: tail).
      split; [rewrite E, <- app_assoc; reflexivity|].
      rewrite slice_chunk by lia. split.
      * cbn [List.concat]. rewrite C.
        replace (Z.to_nat (i + w)) with (Z.to_nat w + Z.to_nat i)%nat by lia.
        rewrite <- skipn_skipn. apply firstn_skipn.
      * constructor; [|exact F].
        rewrite length_firstn, length_skipn. lia.
    + exists []. rewrite app_nil_r, skipn_all2 by lia. now repeat split.
Qed.

(** When what is left is a whole number of words, every piece has exactly
    [w] bytes, and piece [k] starts [k * w] bytes further on. *)
Lemma wordChunks_loop_exact (fuel : nat) : forall i chunks,
  0 <= i <= len -> (w | len - i) -> len - i <= Z.of_nat fuel ->
  exists tail,
    wordChunks_loop fuel i bytes w chunks = chunks ++ tail /\
    Z.of_nat (List.length tail) * w = len - i /\
    forall k, (k < List.length tail)%nat ->
      nth k tail [] = firstn (Z.to_nat w)
                             (skipn (Z.to_nat (i + Z.of_nat k * w)) bytes).
Proof.
  induction fuel as [|fuel IH]; intros i chunks Hi Hd Hf; cbn [wordChunks_loop].
  - exists []. rewrite app_nil_r. split; [reflexivity|].
    split; [cbn; lia | cbn; intros; lia].
  - destruct (Z.ltb_spec i len) as [Hlt|Hge].
    + destruct Hd as [q Hq].
      assert (Hq1 : 1 <= q) by nia.
      destruct (IH (i + w) (chunks ++ [slice bytes i (i + w)]))
        as [tail [E [L N]]]; [nia | exists (q - 1); lia | lia |].
      exists (slice bytes i (i + w) :: tail).
      split; [rewrite E, <- app_assoc; reflexivity|].
      split; [cbn [List.length]; lia|].
      intros [|k] Hk.
      * cbn [nth]. rewrite slice_chunk by lia. do 2 f_equal. lia.
      * cbn [nth List.length] in *. rewrite N by lia. do 3 f_equal. lia.
    + exists []. rewrite app_nil_r. split; [reflexivity|].
      split; [cbn; lia | cbn; intros; lia].
Qed.

End Chunks.

Lemma Forall_window {A : Type} (P : A -> Prop) (l : list A) (n : nat) :
  Forall P l -> Forall P (firstn n l) /\ Forall P (skipn n l).
Proof. intro H. apply Forall_app. now rewrite firstn_skipn. Qed.

Lemma loop_skipn (j : nat) : forall n v,
  (j <= n)%nat ->
  skipn j (bigIntToBytes_loop n v [])
  = bigIntToBytes_loop (n - j) (v / 256 ^ Z.of_nat j) [].
Proof.
  induction j as [|j IH]; intros n v Hj.
  - cbn [skipn]. change (256 ^ Z.of_nat 0) with 1.
    now rewrite Z.div_1_r, Nat.sub_0_r.
  - destruct n as [|n]; [lia|].
    rewrite loop_step. cbn [skipn]. rewrite IH by lia. rewrite drop_byte.
    rewrite Z.div_div by (try apply Z.pow_pos_nonneg; lia).
    rewrite Nat2Z.inj_succ, Z.pow_succ_r by lia. reflexivity.
Qed.

Lemma loop_firstn (k : nat) : forall n v,
  (k <= n)%nat ->
  firstn k (bigIntToBytes_loop n v []) = bigIntToBytes_loop k v [].
Proof.
  induction k as [|k IH]; intros n v Hk; [reflexivity|].
  destruct n as [|n]; [lia|].
  rewrite !loop_step. cbn [firstn]. now rewrite IH by lia.
Qed.

(** The bytes [k .. k + m) of the little-endian sequence are the number
    [v / 256^k], cut to [m] bytes. *)
Lemma loop_window (n k m : nat) (v : Z) :
  (k + m <= n)%nat ->
  reconstruct (firstn m (skipn k (bigIntToBytes_loop n v [])))
  = (v / 256 ^ Z.of_nat k) mod 256 ^ Z.of_nat m.
Proof.
  intro H. rewrite loop_skipn, loop_firstn by lia. apply reconstruct_loop.
Qed.

Lemma dynamicByteLength_facts (value : Z) (byteWidth : ByteWidth) :
  2 <= bytesOf byteWidth <= dynamicByteLength value byteWidth /\
  (bytesOf byteWidth | dynamicByteLength value byteWidth) /\
  calculateMinBytes value <= dynamicByteLength value byteWidth.
Proof.
  pose proof (calculateMinBytes_positive value) as Hm.
  set (m := calculateMinBytes value) in *.
  set (w := bytesOf byteWidth).
  assert (Hw : 2 <= w) by (subst w; destruct byteWidth; simpl; lia).
  assert (E : dynamicByteLength value byteWidth = Z.max w ((m + w - 1) / w * w)).
  { unfold dynamicByteLength, Math_max. fold m w. now rewrite ceil_div by lia. }
  pose proof (Z.div_mod (m + w - 1) w ltac:(lia)) as D.
  pose proof (Z.mod_pos_bound (m + w - 1) w ltac:(lia)) as R.
  set (k := (m + w - 1) / w) in *.
  assert (Hk : 1 <= k) by nia.
  assert (Hn : dynamicByteLength value byteWidth = k * w) by nia.
  split; [nia|]. split; [exists k; exact Hn | nia].
Qed.

Section ChunkProperties.

(** X18. [wordChunks] cuts any byte array into consecutive pieces whose
    concatenation is the array; no piece is empty and none is longer than
    the word width (the last one may be shorter). *)
Theorem wordChunks_partition (bytes : list Z) (byteWidth : ByteWidth) :
  List.concat (wordChunks bytes byteWidth) = bytes /\
  Forall (fun c => 1 <= Z.of_nat (List.length c) <= bytesOf byteWidth)
         (wordChunks bytes byteWidth).
Proof.
  assert (Hw : 0 < bytesOf byteWidth) by (destruct byteWidth; cbn; lia).
  destruct (wordChunks_loop_spec bytes (bytesOf byteWidth) Hw
              (List.length bytes) 0 []) as [tail [E [C F]]]; [lia | lia |].
  unfold wordChunks. rewrite E. cbn [app]. split; [exact C | exact F].
Qed.

(** The chunks of [memoryBytes] as a list of windows. *)
Lemma wordChunks_memoryBytes_nth (v : Z) (byteWidth : ByteWidth)
  (isLittleEndian : bool) :
  Z.of_nat (List.length (wordChunks (memoryBytes v byteWidth isLittleEndian) byteWidth))
  * bytesOf byteWidth = dynamicByteLength v byteWidth /\
  forall k,
    (k < List.length (wordChunks (memoryBytes v byteWidth isLittleEndian) byteWidth))%nat ->
    nth k (wordChunks (memoryBytes v byteWidth isLittleEndian) byteWidth) []
    = firstn (Z.to_nat (bytesOf byteWidth))
             (skipn (Z.to_nat (Z.of_nat k * bytesOf byteWidth))
                    (memoryBytes v byteWidth isLittleEndian)).
Proof.
  destruct (dynamicByteLength_facts v byteWidth) as [Hw [Hd _]].
  assert (Hl : Z.of_nat (List.length (memoryBytes v byteWidth isLittleEndian))
               = dynamicByteLength v byteWidth).
  { unfold memoryBytes. rewrite bigIntToBytes_length. lia. }
  destruct (wordChunks_loop_exact (memoryBytes v byteWidth isLittleEndian)
              (bytesOf byteWidth) ltac:(lia)
              (List.length (memoryBytes v byteWidth isLittleEndian)) 0 [])
    as [tail [E [L N]]]; [lia | now rewrite Z.sub_0_r, Hl | lia |].
  unfold wordChunks. rewrite E. cbn [app]. split; [lia|].
  intros k Hk. now rewrite N.
Qed.

(** X19. In the word view the bytes of [memoryBytes] fall into
    [dynamicByteLength / byteWidth] words of exactly [byteWidth] bytes,
    and word [k] shows the [k]-th word of the number counted from the
    least significant one in little-endian order, from the most
    significant one in big-endian order. *)
Theorem wordChunks_word_value (v : Z) (byteWidth : ByteWidth)
  (isLittleEndian : bool) (k : Z) :
  0 <= k < dynamicByteLength v byteWidth / bytesOf byteWidth ->
  Z.of_nat (List.length (wordChunks (memoryBytes v byteWidth isLittleEndian) byteWidth))
  = dynamicByteLength v byteWidth / bytesOf byteWidth /\
  Z.of_nat (List.length
              (nth (Z.to_nat k)
                   (wordChunks (memoryBytes v byteWidth isLittleEndian) byteWidth) []))
  = bytesOf byteWidth /\
  wordValue (nth (Z.to_nat k)
                 (wordChunks (memoryBytes v byteWidth isLittleEndian) byteWidth) [])
            isLittleEndian
  = (v / 256 ^ (bytesOf byteWidth
                * (if isLittleEndian then k
                   else dynamicByteLength v byteWidth / bytesOf byteWidth - 1 - k)))
    mod 256 ^ bytesOf byteWidth.
Proof.
  intro Hk.
  destruct (dynamicByteLength_facts v byteWidth) as [Hw [[q Hq] _]].
  destruct (wordChunks_memoryBytes_nth v byteWidth isLittleEndian) as [L N].
  set (w := bytesOf byteWidth) in *. set (n := dynamicByteLength v byteWidth) in *.
  set (chunks := wordChunks (memoryBytes v byteWidth isLittleEndian) byteWidth) in *.
  assert (Eq : n / w = q) by (rewrite Hq; apply Z.div_mul; lia).
  rewrite Eq in *.
  assert (Ec : Z.of_nat (List.length chunks) = q) by nia.
  split; [exact Ec|].
  rewrite N by lia. rewrite Z2Nat.id by lia.
  assert (Hkw : k * w + w <= n) by nia.
  unfold memoryBytes. fold n.
  split.
  - rewrite length_firstn, length_skipn, bigIntToBytes_length. lia.
  - destruct isLittleEndian.
    + rewrite wordValue_reconstruct
        by (apply Forall_window, Forall_window, bigIntToBytes_range).
      rewrite bigIntToBytes_little, loop_window by lia.
      rewrite !Z2Nat.id by lia. do 3 f_equal. lia.
    + rewrite bigIntToBytes_big.
      rewrite skipn_rev, firstn_rev, length_firstn, loop_length.
      rewrite skipn_firstn_comm.
      rewrite wordValue_reconstruct.
      2:{ apply Forall_rev, Forall_window, Forall_window, loop_range. }
      rewrite rev_involutive.
      replace (Nat.min (Z.to_nat n - Z.to_nat (k * w)) (Z.to_nat n)
               - Z.to_nat w)%nat
        with (Z.to_nat (n - k * w - w)) by lia.
      replace (Z.to_nat n - Z.to_nat (k * w) - Z.to_nat (n - k * w - w))%nat
        with (Z.to_nat w) by lia.
      rewrite loop_window by lia.
      rewrite !Z2Nat.id by lia. do 3 f_equal. nia.
Qed.

Lemma wordChunks_word_value_witness :
  0 <= 1 < dynamicByteLength 305419896 bw2 / bytesOf bw2 /\
  wordValue (nth 1 (wordChunks (memoryBytes 305419896 bw2 false) bw2) []) false
  = (305419896 / 256 ^ (2 * 0)) mod 256 ^ 2.
Proof.
  assert (H : 0 <= 1 < dynamicByteLength 305419896 bw2 / bytesOf bw2)
    by (vm_compute; split; [discriminate | reflexivity]).
  split; [exact H|].
  exact (proj2 (proj2 (wordChunks_word_value 305419896 bw2 false 1 H))).
Defined.

End ChunkProperties.

(* ================================================================== *)
(** * The values of the reinterpretation view                          *)
(* ================================================================== *)

Section ReinterpretationValues.

Local Abbreviation byte := (fun b : Z => 0 <= b <= 255).

Lemma update_at (pre : list Z) (x y : Z) (rest : list Z) :
  update (List.length pre) x (pre ++ y :: rest) = pre ++ x :: rest.
Proof.
  induction pre as [|p pre IH]; [reflexivity|].
  cbn [List.length app update]. now rewrite IH.
Qed.

(** After [m] more steps from index [i] the view holds the first [i + m]
    bytes of the array, and zeros behind them. *)
Lemma fillView_eval (mb : list Z) (m : nat) : forall i,
  Forall byte mb ->
  (i + m <= List.length mb)%nat -> (i + m <= 8)%nat ->
  fillView m (Z.of_nat i) mb (firstn i mb ++ repeat 0 (8 - i))
  = Normal (firstn (i + m) mb ++ repeat 0 (8 - (i + m))).
Proof.
  induction m as [|m IH]; intros i Hb Hl H8; cbn [fillView].
  - now rewrite Nat.add_0_r.
  - unfold setUint8, byteLength.
    rewrite length_app, length_firstn, repeat_length.
    destruct (Z.leb_spec 0 (Z.of_nat i)); [|lia].
    destruct (Z.leb_spec (Z.of_nat i + 1)
                (Z.of_nat (Nat.min i (List.length mb) + (8 - i)))); [|lia].
    cbn [andb bind]. rewrite Nat2Z.id.
    assert (Hx : 0 <= nth i mb 0 <= 255).
    { apply (proj1 (Forall_forall _ _) Hb). apply nth_In. lia. }
    rewrite Z.mod_small by lia.
    replace (8 - i)%nat with (S (8 - S i)) by lia. cbn [repeat].
    pose proof (update_at (firstn i mb) (nth i mb 0) 0 (repeat 0 (8 - S i))) as U.
    rewrite length_firstn, Nat.min_l in U by lia. rewrite U.
    replace (firstn i mb ++ nth i mb 0 :: repeat 0 (8 - S i))
      with (firstn (S i) mb ++ repeat 0 (8 - S i))
      by (rewrite (firstn_snoc 0) by lia; now rewrite <- app_assoc).
    replace (Z.of_nat i + 1) with (Z.of_nat (S i)) by lia.
    rewrite IH by (assumption || lia).
    now replace (S i + m)%nat with (i + S m)%nat by lia.
Qed.

Lemma safeGet_eval {A : Type} (n : Z) (f : list Z -> A) (V : list Z) (w : Z) :
  byteLength V = 8 -> 0 <= w <= 8 ->
  safeGet n (fun _ => bs <- viewBytes V 0 w ;; Normal (f bs)) w
  = Normal (if n <? w then None else Some (f (firstn (Z.to_nat w) V))).
Proof.
  intros HV Hw. unfold safeGet, viewBytes. rewrite HV.
  cbn [Z.leb Z.add andb Z.to_nat skipn].
  destruct (Z.leb_spec w 8); [|lia].
  now destruct (n <? w).
Qed.

Ltac eval_field n V HV f w :=
  let S := fresh "S" in
  pose proof (safeGet_eval n f V w HV ltac:(lia)) as S;
  cbv beta in S; rewrite S; clear S; cbn [bind].

(** The full result of [interpretations] on an array of bytes. *)
Lemma interpretations_eval (mb : list Z) (le : bool) :
  Forall byte mb ->
  let n := Z.min (Z.of_nat (List.length mb)) 8 in
  let V := firstn (Z.to_nat n) mb ++ repeat 0 (8 - Z.to_nat n) in
  let get (A : Type) (w : Z) (f : list Z -> A) :=
    if n <? w then None else Some (f (firstn (Z.to_nat w) V)) in
  interpretations mb le
  = Normal {| int8 := get Z 1 (fun bs => signedOf 8 (unsignedOf true bs));
              uint8 := get Z 1 (fun bs => unsignedOf true bs);
              int16 := get Z 2 (fun bs => signedOf 16 (unsignedOf le bs));
              uint16 := get Z 2 (fun bs => unsignedOf le bs);
              int32 := get Z 4 (fun bs => signedOf 32 (unsignedOf le bs));
              uint32 := get Z 4 (fun bs => unsignedOf le bs);
              float32 := get spec_float 4 (fun bs => decodeFloat 8 23 (unsignedOf le bs));
              int64 := get Z 8 (fun bs => signedOf 64 (unsignedOf le bs));
              uint64 := get Z 8 (fun bs => unsignedOf le bs);
              float64 := get spec_float 8
                           (fun bs => decodeFloat 11 52 (unsignedOf le bs)) |}.
Proof.
  intros Hb n V get. unfold interpretations, Math_min. fold n.
  pose proof (fillView_eval mb (Z.to_nat n) 0 Hb ltac:(lia) ltac:(lia)) as F.
  change (fillView (Z.to_nat n) 0 mb (repeat 0 8) = Normal V) in F.
  change (ArrayBuffer 8) with (repeat 0 8). rewrite F. cbn [bind]. cbv zeta.
  assert (HV : byteLength V = 8).
  { unfold byteLength, V. rewrite length_app, length_firstn, repeat_length. lia. }
  unfold getInt8, getUint8, getInt16, getUint16, getInt32, getUint32,
    getFloat32, getBigInt64, getBigUint64, getFloat64.
  eval_field n V HV (fun bs => signedOf 8 (unsignedOf true bs)) 1.
  eval_field n V HV (fun bs => unsignedOf true bs) 1.
  eval_field n V HV (fun bs => signedOf 16 (unsignedOf le bs)) 2.
  eval_field n V HV (fun bs => unsignedOf le bs) 2.
  eval_field n V HV (fun bs => signedOf 32 (unsignedOf le bs)) 4.
  eval_field n V HV (fun bs => unsignedOf le bs) 4.
  eval_field n V HV (fun bs => decodeFloat 8 23 (unsignedOf le bs)) 4.
  eval_field n V HV (fun bs => signedOf 64 (unsignedOf le bs)) 8.
  eval_field n V HV (fun bs => unsignedOf le bs) 8.
  eval_field n V HV (fun bs => decodeFloat 11 52 (unsignedOf le bs)) 8.
  reflexivity.
Qed.

Lemma le_value_reconstruct (bs : list Z) : le_value bs = reconstruct bs.
Proof.
  induction bs as [|b bs IH]; [reflexivity|].
  cbn [le_value]. now rewrite reconstruct_cons, IH.
Qed.

(** The first [w] bytes of the view, read in the byte order they were
    written in. *)
Lemma window_value (v n : Z) (le : bool) (w : Z) :
  0 < w -> w <= n -> w <= 8 ->
  unsignedOf le
    (firstn (Z.to_nat w)
       (firstn (Z.to_nat (Z.min (Z.of_nat (List.length (bigIntToBytes v n le))) 8))
               (bigIntToBytes v n le)
        ++ repeat 0 (8 - Z.to_nat (Z.min (Z.of_nat (List.length (bigIntToBytes v n le))) 8))))
  = windowValue v n le w.
Proof.
  intros Hw Hn H8. rewrite bigIntToBytes_length.
  rewrite firstn_app, length_firstn, bigIntToBytes_length.
  replace (Z.to_nat w - Nat.min (Z.to_nat (Z.min (Z.of_nat (Z.to_nat n)) 8)) (Z.to_nat n))%nat
    with 0%nat by lia.
  cbn [firstn]. rewrite app_nil_r, firstn_firstn.
  replace (Nat.min (Z.to_nat w) (Z.to_nat (Z.min (Z.of_nat (Z.to_nat n)) 8)))
    with (Z.to_nat w) by lia.
  unfold unsignedOf, windowValue. rewrite le_value_reconstruct.
  destruct le.
  - rewrite bigIntToBytes_little, loop_firstn, reconstruct_loop by lia.
    change (256 ^ 0) with 1. rewrite Z.div_1_r, Z2Nat.id by lia. reflexivity.
  - rewrite bigIntToBytes_big, firstn_rev, rev_involutive, loop_length.
    rewrite <- (firstn_all (skipn _ _)), length_skipn, loop_length.
    replace (Z.to_nat n - (Z.to_nat n - Z.to_nat w))%nat with (Z.to_nat w) by lia.
    rewrite loop_window by lia. rewrite !Z2Nat.id by lia.
    do 3 f_equal. lia.
Qed.

End ReinterpretationValues.

Section ReinterpretationProperties.

Local Abbreviation byte := (fun b : Z => 0 <= b <= 255).

Lemma unsignedOf_single (le : bool) (bs : list Z) :
  List.length bs = 1%nat -> unsignedOf true bs = unsignedOf le bs.
Proof.
  destruct bs as [|b [|c bs]]; try discriminate. now destruct le.
Qed.

Lemma windowValue_little (v n w : Z) : windowValue v n true w = v mod 256 ^ w.
Proof. unfold windowValue. change (256 ^ 0) with 1. now rewrite Z.div_1_r. Qed.

Lemma windowValue_whole (v n : Z) (le : bool) :
  windowValue v n le n = v mod 256 ^ n.
Proof.
  unfold windowValue. destruct le; rewrite ?Z.sub_diag;
    change (256 ^ 0) with 1; now rewrite Z.div_1_r.
Qed.

(** The two's complement reading of the low bits of a number in the signed
    range is the number. *)
Lemma signedOf_mod (bits v : Z) :
  0 < bits -> - 2 ^ (bits - 1) <= v < 2 ^ (bits - 1) ->
  signedOf bits (v mod 2 ^ bits) = v.
Proof.
  intros Hb Hv. unfold signedOf.
  assert (Hp : 0 < 2 ^ (bits - 1)) by (apply Z.pow_pos_nonneg; lia).
  assert (E : 2 ^ bits = 2 * 2 ^ (bits - 1)).
  { rewrite <- Z.pow_succ_r by lia. f_equal. lia. }
  destruct (Z.le_gt_cases 0 v) as [Hn|Hn].
  - rewrite Z.mod_small by lia.
    destruct (Z.ltb_spec v (2 ^ (bits - 1))); lia.
  - assert (M : v mod 2 ^ bits = v + 2 ^ bits).
    { symmetry. apply (Z.mod_unique v (2 ^ bits) (-1)); lia. }
    rewrite M. destruct (Z.ltb_spec (v + 2 ^ bits) (2 ^ (bits - 1))); lia.
Qed.

(** X20. The unsigned and floating-point interpretations read the first bytes in
    memory: of a number written on [n] bytes, a type of [w] bytes shows the
    low [w] bytes ([v mod 256^w]) in little-endian order, and the high [w]
    bytes of the [n]-byte number in big-endian order; Float32 and Float64
    decode the same bits as Uint32 and Uint64. *)
Theorem interpretations_unsigned (v n : Z) (isLittleEndian : bool) :
  0 < n ->
  exists r,
    interpretations (bigIntToBytes v n isLittleEndian) isLittleEndian = Normal r /\
    uint8 r = Some (windowValue v n isLittleEndian 1) /\
    (2 <= n -> uint16 r = Some (windowValue v n isLittleEndian 2)) /\
    (4 <= n -> uint32 r = Some (windowValue v n isLittleEndian 4) /\
               float32 r = Some (decodeFloat 8 23 (windowValue v n isLittleEndian 4))) /\
    (8 <= n -> uint64 r = Some (windowValue v n isLittleEndian 8) /\
               float64 r = Some (decodeFloat 11 52 (windowValue v n isLittleEndian 8))) /\
    (forall w, windowValue v n true w = v mod 256 ^ w) /\
    (forall w, windowValue v n false w = (v / 256 ^ (n - w)) mod 256 ^ w).
Proof.
  intro Hn.
  rewrite (interpretations_eval _ isLittleEndian
             (bigIntToBytes_range v n isLittleEndian)).
  cbv zeta. eexists. split; [reflexivity|].
  cbn [uint8 uint16 uint32 float32 uint64 float64].
  assert (L : Z.min (Z.of_nat (List.length (bigIntToBytes v n isLittleEndian))) 8
              = Z.min n 8) by (rewrite bigIntToBytes_length; lia).
  split; [|split; [|split; [|split; [|split]]]].
  - destruct (Z.ltb_spec
                (Z.min (Z.of_nat (List.length (bigIntToBytes v n isLittleEndian))) 8) 1);
      [lia|].
    rewrite (unsignedOf_single isLittleEndian).
    + now rewrite window_value by lia.
    + rewrite length_firstn, length_app, length_firstn, repeat_length,
        bigIntToBytes_length. lia.
  - intro H.
    destruct (Z.ltb_spec
                (Z.min (Z.of_nat (List.length (bigIntToBytes v n isLittleEndian))) 8) 2);
      [lia|].
    now rewrite window_value by lia.
  - intro H.
    destruct (Z.ltb_spec
                (Z.min (Z.of_nat (List.length (bigIntToBytes v n isLittleEndian))) 8) 4);
      [lia|].
    now rewrite window_value by lia.
  - intro H.
    destruct (Z.ltb_spec
                (Z.min (Z.of_nat (List.length (bigIntToBytes v n isLittleEndian))) 8) 8);
      [lia|].
    now rewrite window_value by lia.
  - intro w. apply windowValue_little.
  - reflexivity.
Qed.

Lemma interpretations_unsigned_witness :
  0 < 4 /\
  exists r,
    interpretations (bigIntToBytes 305419896 4 false) false = Normal r /\
    uint16 r = Some (windowValue 305419896 4 false 2) /\
    windowValue 305419896 4 false 2 = 4660.
Proof.
  assert (H : 0 < 4) by lia. split; [exact H|].
  destruct (interpretations_unsigned 305419896 4 false H) as [r [E [_ [U _]]]].
  exists r. split; [exact E | split; [apply U; lia | reflexivity]].
Defined.

(** X21. Encoding and reinterpreting is a round trip: a number in the range of
    a signed type is read back unchanged by that type, negative numbers
    included, in little-endian order whenever enough bytes were written,
    and in big-endian order when exactly the bytes of the type were. *)
Theorem interpretations_signed_roundtrip (v n : Z) (isLittleEndian : bool) :
  0 < n ->
  exists r,
    interpretations (bigIntToBytes v n isLittleEndian) isLittleEndian = Normal r /\
    (isLittleEndian = true \/ n = 1 ->
     - 2 ^ 7 <= v < 2 ^ 7 -> int8 r = Some v) /\
    (2 <= n -> isLittleEndian = true \/ n = 2 ->
     - 2 ^ 15 <= v < 2 ^ 15 -> int16 r = Some v) /\
    (4 <= n -> isLittleEndian = true \/ n = 4 ->
     - 2 ^ 31 <= v < 2 ^ 31 -> int32 r = Some v) /\
    (8 <= n -> isLittleEndian = true \/ n = 8 ->
     - 2 ^ 63 <= v < 2 ^ 63 -> int64 r = Some v).
Proof.
  intro Hn.
  rewrite (interpretations_eval _ isLittleEndian
             (bigIntToBytes_range v n isLittleEndian)).
  cbv zeta. eexists. split; [reflexivity|].
  cbn [int8 int16 int32 int64].
  assert (L : Z.min (Z.of_nat (List.length (bigIntToBytes v n isLittleEndian))) 8
              = Z.min n 8) by (rewrite bigIntToBytes_length; lia).
  assert (W : forall w, isLittleEndian = true \/ n = w ->
                        windowValue v n isLittleEndian w = v mod 256 ^ w).
  { intros w [->| ->]; [apply windowValue_little | apply windowValue_whole]. }
  split; [|split; [|split]].
  - intros Ho Hv.
    destruct (Z.ltb_spec
                (Z.min (Z.of_nat (List.length (bigIntToBytes v n isLittleEndian))) 8) 1);
      [lia|].
    rewrite (unsignedOf_single isLittleEndian).
    + rewrite window_value, W by (assumption || lia).
      f_equal. apply (signedOf_mod 8); simpl; lia.
    + rewrite length_firstn, length_app, length_firstn, repeat_length,
        bigIntToBytes_length. lia.
  - intros H Ho Hv.
    destruct (Z.ltb_spec
                (Z.min (Z.of_nat (List.length (bigIntToBytes v n isLittleEndian))) 8) 2);
      [lia|].
    rewrite window_value, W by (assumption || lia).
    f_equal. apply (signedOf_mod 16); simpl; lia.
  - intros H Ho Hv.
    destruct (Z.ltb_spec
                (Z.min (Z.of_nat (List.length (bigIntToBytes v n isLittleEndian))) 8) 4);
      [lia|].
    rewrite window_value, W by (assumption || lia).
    f_equal. apply (signedOf_mod 32); simpl; lia.
  - intros H Ho Hv.
    destruct (Z.ltb_spec
                (Z.min (Z.of_nat (List.length (bigIntToBytes v n isLittleEndian))) 8) 8);
      [lia|].
    rewrite window_value, W by (assumption || lia).
    f_equal. apply (signedOf_mod 64); simpl; lia.
Qed.

Lemma interpretations_signed_roundtrip_witness :
  0 < 4 /\
  exists r,
    interpretations (bigIntToBytes (-2) 4 true) true = Normal r /\
    int16 r = Some (-2).
Proof.
  assert (H : 0 < 4) by lia. split; [exact H|].
  destruct (interpretations_signed_roundtrip (-2) 4 true H) as [r [E [_ [I _]]]].
  exists r. split; [exact E|].
  apply I; [lia | now left | simpl; lia].
Defined.

(** X22. In the application at least two bytes are always encoded, so the 8-bit
    and 16-bit interpretations are never unavailable; the 32-bit ones are
    there as soon as the word width is 32 or 64 bits, and the 64-bit ones
    when it is 64 bits. *)
Theorem interpretations_of_memoryBytes (v : Z) (byteWidth : ByteWidth)
  (isLittleEndian : bool) :
  exists r,
    interpretations (memoryBytes v byteWidth isLittleEndian) isLittleEndian
    = Normal r /\
    int8 r <> None /\ uint8 r <> None /\ int16 r <> None /\ uint16 r <> None /\
    (byteWidth <> bw2 -> int32 r <> None /\ uint32 r <> None /\ float32 r <> None) /\
    (byteWidth = bw8 -> int64 r <> None /\ uint64 r <> None /\ float64 r <> None).
Proof.
  destruct (dynamicByteLength_facts v byteWidth) as [Hw _].
  unfold memoryBytes.
  set (n := dynamicByteLength v byteWidth) in *.
  rewrite (interpretations_eval _ isLittleEndian
             (bigIntToBytes_range v n isLittleEndian)).
  cbv zeta. eexists. split; [reflexivity|].
  cbn [int8 uint8 int16 uint16 int32 uint32 float32 int64 uint64 float64].
  assert (L : Z.min (Z.of_nat (List.length (bigIntToBytes v n isLittleEndian))) 8
              = Z.min n 8) by (rewrite bigIntToBytes_length; lia).
  rewrite L.
  destruct (Z.ltb_spec (Z.min n 8) 1); [lia|].
  destruct (Z.ltb_spec (Z.min n 8) 2); [lia|].
  repeat (split; [discriminate|]).
  split.
  - intro Hb. assert (4 <= bytesOf byteWidth) by (destruct byteWidth; cbn; congruence || lia).
    destruct (Z.ltb_spec (Z.min n 8) 4); [lia|]. repeat split; discriminate.
  - intros ->. cbn in Hw.
    destruct (Z.ltb_spec (Z.min n 8) 8); [lia|]. repeat split; discriminate.
Qed.


End ReinterpretationProperties.

Lemma interpretations_of_memoryBytes_witness :
  exists r,
    interpretations (memoryBytes 305419896 bw4 true) true = Normal r /\
    int32 r <> None.
Proof.
  destruct (interpretations_of_memoryBytes 305419896 bw4 true)
    as [r [E [_ [_ [_ [_ [H _]]]]]]].
  exists r. split; [exact E|]. apply H. discriminate.
Defined.
